(** * Inbox Intelligence backend: the categorization pipeline of [main.py]

    A shallow embedding of [categorize_with_ai], of the fetch-and-count loop
    of [callback] and of [get_result], with the properties of the
    specification stated and proved over that embedding.

    Conventions.
    - A Python [str] is a list of Unicode code points ([list N]); slicing,
      [strip] and [split] therefore count characters, as Python does.
    - A Python [dict] whose iteration order is observable is an insertion
      ordered association list ([dict_get], [dict_set]); the
      [defaultdict(int)] used only as a counter is a [gmap].
    - A Python exception of class [Exception] is a value of [exn]; code that
      may raise returns [res A].  Signals that are not [Exception]s
      (KeyboardInterrupt, SystemExit) are outside the model.
    - The Gmail client, the Groq client, the OAuth flow and [json.loads] are
      external: they are the fields of an [Env], each call threading the
      state of the outside world and being recorded in a trace. *)

From Stdlib Require Import ZArith NArith List String Ascii Lia.
From Stdlib Require Import Floats.SpecFloat.
From Stdlib Require Import DecimalPos.
From stdpp Require Import numbers gmap base option list list_relations.

Set Warnings "-register-all".
Local Open Scope Z_scope.

(* ===================================================================== *)
(** ** Python strings *)
(* ===================================================================== *)

Abbreviation char := N (only parsing).
Abbreviation str := (list N) (only parsing).

(** An ASCII literal of the source, as code points. *)
Definition lit (s : string) : str :=
  List.map N_of_ascii (list_ascii_of_string s).

Definition ch_newline : char := 10%N.
Definition ch_space : char := 32%N.
Definition ch_dquote : char := 34%N.
Definition ch_plus : char := 43%N.
Definition ch_minus : char := 45%N.
Definition ch_lt : char := 60%N.
Definition ch_underscore : char := 95%N.

Definition in_range (lo hi c : N) : bool := ((lo <=? c) && (c <=? hi))%N.

(** [str.isspace] on one character: the ASCII table of CPython
    ([_Py_ascii_whitespace]) and the characters of bidirectional type WS, B
    or S or of category Zs ([_PyUnicode_IsWhitespace]). *)
Definition isspace (c : char) : bool :=
  in_range 9 13 c || in_range 28 32 c
  || (c =? 133)%N || (c =? 160)%N || (c =? 5760)%N
  || in_range 8192 8202 c
  || (c =? 8232)%N || (c =? 8233)%N || (c =? 8239)%N || (c =? 8287)%N
  || (c =? 12288)%N.

Fixpoint lstrip_with (f : char -> bool) (s : str) : str :=
  match s with
  | c :: r => if f c then lstrip_with f r else s
  | [] => []
  end.

Definition strip_with (f : char -> bool) (s : str) : str :=
  rev (lstrip_with f (rev (lstrip_with f s))).

(** [s.strip()] *)
Definition strip (s : str) : str := strip_with isspace s.

(** [s.split(sep)[0]] for a one-character separator: the text before the
    first occurrence of [sep], the whole of [s] when there is none. *)
Fixpoint split_head (sep : char) (s : str) : str :=
  match s with
  | [] => []
  | c :: r => if (c =? sep)%N then [] else c :: split_head sep r
  end.

(** [s.replace(old, '')] for a one-character [old]. *)
Definition remove_char (old : char) (s : str) : str :=
  List.filter (fun c => negb (c =? old)%N) s.

(** [s.replace(old, new)] for one-character [old] and [new]. *)
Definition replace_char (old new : char) (s : str) : str :=
  List.map (fun c => if (c =? old)%N then new else c) s.

(** [sep.join(parts)] *)
Fixpoint join (sep : str) (parts : list str) : str :=
  match parts with
  | [] => []
  | [p] => p
  | p :: rest => p ++ sep ++ join sep rest
  end.

Fixpoint uint_digits (d : Decimal.uint) : str :=
  match d with
  | Decimal.Nil => []
  | Decimal.D0 r => 48%N :: uint_digits r
  | Decimal.D1 r => 49%N :: uint_digits r
  | Decimal.D2 r => 50%N :: uint_digits r
  | Decimal.D3 r => 51%N :: uint_digits r
  | Decimal.D4 r => 52%N :: uint_digits r
  | Decimal.D5 r => 53%N :: uint_digits r
  | Decimal.D6 r => 54%N :: uint_digits r
  | Decimal.D7 r => 55%N :: uint_digits r
  | Decimal.D8 r => 56%N :: uint_digits r
  | Decimal.D9 r => 57%N :: uint_digits r
  end.

(** [str(n)] for an [int], as an f-string formats it. *)
Definition str_of_int (n : Z) : str :=
  match Z.to_int n with
  | Decimal.Pos d => uint_digits d
  | Decimal.Neg d => ch_minus :: uint_digits d
  end.

(* ===================================================================== *)
(** ** Exceptions and results *)
(* ===================================================================== *)

Inductive exn : Type :=
  | TypeError
  | ValueError
  | OverflowError
  | KeyError
  | IndexError
  | AttributeError
  | JSONDecodeError
  | OtherError (what : str).

Definition res (A : Type) : Type := exn + A.

Definition res_bind {A B : Type} (c : res A) (k : A -> res B) : res B :=
  match c with
  | inl e => inl e
  | inr a => k a
  end.

Notation "'let!' x ':=' c 'in' k" := (res_bind c (fun x => k))
  (at level 10, x name, c at level 100, k at level 200).

(** Every element converted in order; the first failure is the result. *)
Fixpoint res_map {A B : Type} (f : A -> res B) (l : list A) : res (list B) :=
  match l with
  | [] => inr []
  | a :: r => let! b := f a in let! bs := res_map f r in inr (b :: bs)
  end.

(* ===================================================================== *)
(** ** Insertion-ordered dictionaries *)
(* ===================================================================== *)

Definition dict (K V : Type) : Type := list (K * V).

Fixpoint dict_get {K V : Type} `{EqDecision K} (k : K) (d : dict K V) : option V :=
  match d with
  | [] => None
  | (k', v) :: r => if decide (k = k') then Some v else dict_get k r
  end.

(** [d[k] = v]: a present key keeps its position, a new key goes last. *)
Fixpoint dict_set {K V : Type} `{EqDecision K} (k : K) (v : V) (d : dict K V) : dict K V :=
  match d with
  | [] => [(k, v)]
  | (k', v') :: r =>
      if decide (k = k') then (k', v) :: r else (k', v') :: dict_set k v r
  end.

Definition dict_keys {K V : Type} (d : dict K V) : list K := fst <$> d.

(** [enumerate(l, start)] *)
Fixpoint enumerate {A : Type} (l : list A) (start : Z) : list (Z * A) :=
  match l with
  | [] => []
  | a :: r => (start, a) :: enumerate r (start + 1)
  end.

(** [{k: v for k, v in pairs}] *)
Definition dict_of_pairs {K V : Type} `{EqDecision K} (pairs : list (K * V)) : dict K V :=
  fold_left (fun d kv => dict_set (fst kv) (snd kv) d) pairs [].

(* ===================================================================== *)
(** ** JSON values and the [int] builtin *)
(* ===================================================================== *)

(** What [json.loads] returns: [None], [bool], [int], [float], [str],
    [list] and [dict] (keys in document order). *)
Inductive json : Type :=
  | JNull
  | JBool (b : bool)
  | JInt (n : Z)
  | JFloat (f : spec_float)
  | JStr (s : str)
  | JList (l : list json)
  | JDict (d : list (str * json)).

(** First code points of the runs of ten decimal digits (category Nd) of
    Unicode 14.0, the table of [unicodedata.decimal]. *)
Definition decimal_runs : list N :=
  [ 48; 1632; 1776; 1984; 2406; 2534; 2662; 2790; 2918; 3046; 3174; 3302;
    3430; 3558; 3664; 3792; 3872; 4160; 4240; 6112; 6160; 6470; 6608; 6784;
    6800; 6992; 7088; 7232; 7248; 42528; 43216; 43264; 43472; 43504; 43600;
    44016; 65296; 66720; 68912; 69734; 69872; 69942; 70096; 70384; 70736;
    70864; 71248; 71360; 71472; 71904; 72016; 72784; 73040; 73120; 92768;
    92864; 93008; 120782; 120792; 120802; 120812; 120822; 123200; 123632;
    125264; 130032 ]%N.

Definition decimal_value (c : char) : option Z :=
  match List.find (fun b => in_range b (b + 9) c) decimal_runs with
  | Some b => Some (Z.of_N (c - b))
  | None => None
  end.

(** White space that [int] skips around the number: the C locale's
    [isspace] for ASCII, every Unicode white space above it. *)
Definition int_space (c : char) : bool :=
  in_range 9 13 c || (c =? 32)%N || ((128 <=? c)%N && isspace c).

(** [sys.int_info.default_max_str_digits] *)
Definition int_max_str_digits : nat := 4300.

(** Digits with single underscores between them; [prev] tells whether the
    previous character was a digit.  Returns the value and the number of
    digits read. *)
Fixpoint parse_digits (acc : Z) (count : nat) (prev : bool) (s : str) : option (Z * nat) :=
  match s with
  | [] => if prev then Some (acc, count) else None
  | c :: r =>
      if (c =? ch_underscore)%N then
        if prev then parse_digits acc count false r else None
      else
        match decimal_value c with
        | Some d => parse_digits (10 * acc + d) (S count) true r
        | None => None
        end
  end.

Definition parse_unsigned (s : str) : res Z :=
  match parse_digits 0 0 false s with
  | Some (n, count) =>
      if (int_max_str_digits <? count)%nat then inl ValueError else inr n
  | None => inl ValueError
  end.

(** [int(s)] for a [str]. *)
Definition int_of_str (s : str) : res Z :=
  match strip_with int_space s with
  | c :: r =>
      if (c =? ch_plus)%N then parse_unsigned r
      else if (c =? ch_minus)%N then let! n := parse_unsigned r in inr (- n)
      else parse_unsigned (c :: r)
  | [] => inl ValueError
  end.

(** [int(x)] for a [float]: truncation towards zero. *)
Definition int_of_float (f : spec_float) : res Z :=
  match f with
  | S754_zero _ => inr 0
  | S754_infinity _ => inl OverflowError
  | S754_nan => inl ValueError
  | S754_finite s m e =>
      let a := Z.shiftl (Z.pos m) e in
      inr (if s then - a else a)
  end.

(** [int(v)] for a value decoded from JSON. *)
Definition py_int (v : json) : res Z :=
  match v with
  | JNull => inl TypeError
  | JBool b => inr (if b then 1 else 0)
  | JInt n => inr n
  | JFloat f => int_of_float f
  | JStr s => int_of_str s
  | JList _ => inl TypeError
  | JDict _ => inl TypeError
  end.

(** [for x in v]: the elements of a list, the characters of a string, the
    keys of a dict; anything else is not iterable. *)
Definition py_iter (v : json) : res (list json) :=
  match v with
  | JList l => inr l
  | JStr s => inr (List.map (fun c => JStr [c]) s)
  | JDict d => inr (List.map (fun kv => JStr (fst kv)) d)
  | _ => inl TypeError
  end.

(** [v.items()]: only a dict has it. *)
Definition py_items (v : json) : res (list (str * json)) :=
  match v with
  | JDict d => inr d
  | _ => inl AttributeError
  end.

(* ===================================================================== *)
(** ** Data model *)
(* ===================================================================== *)

(** One fetched message, the dict built at lines 157-162 of [main.py].
    [sender_count] is absent until the second pass of [callback] sets it. *)
Record EmailRecord : Type := {
  id : str;
  from : str;
  subject : str;
  snippet : str;
  sender_count : option Z
}.

#[global] Instance EmailRecord_eq_dec : EqDecision EmailRecord.
Proof. solve_decision. Defined.

(** Category label to the records sorted under it. *)
Definition CategoryAssignment : Type := dict str (list EmailRecord).

(** Responses of the Gmail API, typed after its schema; any property may be
    missing from the JSON, hence the options. *)
Record MsgRef : Type := { ref_id : option str }.
Record Header : Type := { h_name : option str; h_value : option str }.
Record Payload : Type := { p_headers : option (list Header) }.
Record Message : Type := { m_payload : option Payload; m_snippet : option str }.
Record ListResponse : Type := { r_messages : option (list MsgRef) }.

(** What the fetch loop takes from the two reads of one message. *)
Record MessageFields : Type := {
  f_subject : str;
  f_snippet : str;
  f_sender_simple : str
}.

Inductive get_format : Type :=
  | Metadata (metadataHeaders : list str)
  | Minimal.

(** A chat completion of the Groq client: [choices[i].message.content]. *)
Record Choice : Type := { message_content : option str }.
Record Completion : Type := { choices : list Choice }.

Record ChatMessage : Type := { role : str; content : str }.

Record ChatRequest : Type := {
  model : str;
  messages : list ChatMessage;
  temperature : spec_float;
  response_format : list (str * str)
}.

Inductive Credentials : Type := Creds (token : str).

(** [USER_SESSION] *)
Record Session : Type := {
  credentials : option Credentials;
  last_result : CategoryAssignment
}.

Definition USER_SESSION_init : Session :=
  {| credentials := None; last_result := [] |}.

Inductive Response : Type :=
  | RedirectResponse (url : str)
  | JSONResponse (error : exn) (status_code : Z).

(** A surrogate code point, which UTF-8 cannot encode. *)
Definition is_surrogate (c : char) : bool := in_range 55296 57343 c.

(** Whether [str(e)] can be encoded as UTF-8.  The text of an exception of
    an external collaborator is the [what] of [OtherError]; the other
    classes carry no text in this model. *)
Definition encodable (e : exn) : bool :=
  match e with
  | OtherError what => forallb (fun c => negb (is_surrogate c)) what
  | _ => true
  end.

(** Line 178: [JSONResponse({"error": str(e)}, status_code=500)].  The
    response renders its body when it is built, by
    [json.dumps(content, ensure_ascii=False).encode("utf-8")], and a
    surrogate in [str(e)] makes that raise [UnicodeEncodeError], a
    [ValueError]. *)
Definition json_error_response (e : exn) : res Response :=
  if encodable e then inr (JSONResponse e 500) else inl ValueError.

Record ResultResponse : Type := {
  status : str;
  categories : CategoryAssignment
}.

(* ===================================================================== *)
(** ** Effects: the outside world, the session and the trace of calls *)
(* ===================================================================== *)

Inductive call : Type :=
  | CallFetchToken (authorization_response : str)
  | CallBuild (creds : Credentials)
  | CallList (maxResults : Z)
  | CallGet (msg_id : str) (format : get_format)
  | CallChat (req : ChatRequest)
  | LogError (prefix : str) (e : exn).

(** The external collaborators.  Each may fail and may change the world. *)
Record Env (W : Type) : Type := {
  fetch_token : str -> W -> res Credentials * W;
  build : Credentials -> W -> res unit * W;
  messages_list : Z -> W -> res ListResponse * W;
  messages_get : str -> get_format -> W -> res Message * W;
  chat_create : ChatRequest -> W -> res Completion * W;
  json_loads : str -> res json
}.

Arguments fetch_token {W} _ _ _.
Arguments build {W} _ _ _.
Arguments messages_list {W} _ _ _.
Arguments messages_get {W} _ _ _ _.
Arguments chat_create {W} _ _ _.
Arguments json_loads {W} _ _.

Record state (W : Type) : Type := {
  world : W;
  session : Session;
  trace : list call
}.

Arguments world {W} _.
Arguments session {W} _.
Arguments trace {W} _.

Definition M (W A : Type) : Type := state W -> res A * state W.

Definition ret {W A : Type} (a : A) : M W A := fun st => (inr a, st).

Definition bind {W A B : Type} (c : M W A) (k : A -> M W B) : M W B :=
  fun st =>
    match c st with
    | (inl e, st') => (inl e, st')
    | (inr a, st') => k a st'
    end.

Notation "'let*' x ':=' c 'in' k" := (bind c (fun x => k))
  (at level 10, x name, c at level 100, k at level 200).

Definition lift {W A : Type} (r : res A) : M W A := fun st => (r, st).

(** [try: c / except Exception as e: h e].  What [c] did to the world before
    raising stays done. *)
Definition try_except {W A : Type} (c : M W A) (h : exn -> M W A) : M W A :=
  fun st =>
    match c st with
    | (inl e, st') => h e st'
    | (inr a, st') => (inr a, st')
    end.

(** One call of an external collaborator, recorded in the trace. *)
Definition perform {W A : Type} (ev : call) (f : W -> res A * W) : M W A :=
  fun st =>
    let (r, w) := f (world st) in
    (r, {| world := w; session := session st; trace := trace st ++ [ev] |}).

(** [logger.error(f"{prefix}: {e}")] *)
Definition log_error {W : Type} (prefix : str) (e : exn) : M W unit :=
  fun st =>
    (inr tt, {| world := world st; session := session st;
                trace := trace st ++ [LogError prefix e] |}).

Definition get_session {W : Type} : M W Session :=
  fun st => (inr (session st), st).

Definition put_session {W : Type} (s : Session) : M W unit :=
  fun st => (inr tt, {| world := world st; session := s; trace := trace st |}).

(* ===================================================================== *)
(** ** Configuration constants *)
(* ===================================================================== *)

Definition GROQ_MODEL : str := lit "llama-3.1-8b-instant".
Definition FRONTEND_URL : str := lit "http://localhost:8501".

Definition system_prompt : str :=
  join [ch_newline] [
    [];
    lit "    You are a career-focused email assistant. Sort emails into exactly these 4 categories:";
    [];
    lit "    1. " ++ [ch_dquote] ++ [128680%N] ++ lit " Action Required" ++ [ch_dquote] ++ lit " ";
    lit "       - INTERVIEWS, CODING TESTS, DEADLINES, OFFERS.";
    lit "    2. " ++ [ch_dquote] ++ [9203%N] ++ lit " Applications & Updates" ++ [ch_dquote];
    lit "       - " ++ [ch_dquote] ++ lit "Application Received" ++ [ch_dquote] ++ lit ", " ++ [ch_dquote] ++ lit "Status Update" ++ [ch_dquote] ++ lit ", Rejections.";
    lit "    3. " ++ [ch_dquote] ++ [127891%N] ++ lit " University & Learning" ++ [ch_dquote];
    lit "       - College/University emails, Newsletters, Courses.";
    lit "    4. " ++ [ch_dquote] ++ [128465%N] ++ [65039%N] ++ lit " Promotions & Noise" ++ [ch_dquote];
    lit "       - Marketing, LinkedIn notifications, Social media.";
    [];
    lit "    RULES:";
    lit "    - Return ONLY a JSON object: { " ++ [ch_dquote] ++ lit "Category Name" ++ [ch_dquote] ++ lit ": [ID1, ID2] }";
    lit "    - Be aggressive with " ++ [ch_dquote] ++ lit "Action Required" ++ [ch_dquote] ++ lit " for any dates/meetings.";
    lit "    "
  ].

(* ===================================================================== *)
(** ** [categorize_with_ai] *)
(* ===================================================================== *)

(** Line 57: [{i: e for i, e in enumerate(emails, 1)}] *)
Definition make_email_map (emails : list EmailRecord) : dict Z EmailRecord :=
  dict_of_pairs (enumerate emails 1).

(** Lines 62-63: one line of the prompt. *)
Definition prompt_line (i : Z) (e : EmailRecord) : str :=
  let clean_snippet := replace_char ch_newline ch_space (take 60 (snippet e)) in
  lit "ID " ++ str_of_int i ++ lit " | From: " ++ from e
    ++ lit " | Sub: " ++ subject e ++ lit " | Body: " ++ clean_snippet.

(** Lines 60-65 *)
Definition build_prompt (email_map : dict Z EmailRecord) : str :=
  join [ch_newline] (List.map (fun ie => prompt_line (fst ie) (snd ie)) email_map).

(** Lines 86-93: the arguments of [client.chat.completions.create]. *)
Definition chat_request (prompt_text : str) : ChatRequest :=
  {| model := GROQ_MODEL;
     messages := [ {| role := lit "system"; content := system_prompt |};
                   {| role := lit "user"; content := prompt_text |} ];
     temperature := S754_zero false;
     response_format := [(lit "type", lit "json_object")] |}.

(** Line 96: [completion.choices[0].message.content] *)
Definition first_content (completion : Completion) : res (option str) :=
  match choices completion with
  | c :: _ => inr (message_content c)
  | [] => inl IndexError
  end.

(** Line 106: [final_output[category].append(original)] *)
Definition dict_append (category : str) (original : EmailRecord)
    (final_output : CategoryAssignment) : res CategoryAssignment :=
  match dict_get category final_output with
  | Some l => inr (dict_set category (l ++ [original]) final_output)
  | None => inl KeyError
  end.

(** Lines 103-106: the inner loop over the ids of one category.  A record
    that reached this point has its keys, so [if original:] tests only that
    the lookup found one. *)
Fixpoint resolve_ids (email_map : dict Z EmailRecord) (category : str)
    (ids : list json) (final_output : CategoryAssignment) : res CategoryAssignment :=
  match ids with
  | [] => inr final_output
  | eid :: rest =>
      let! n := py_int eid in
      match dict_get n email_map with
      | Some original =>
          let! final_output := dict_append category original final_output in
          resolve_ids email_map category rest final_output
      | None => resolve_ids email_map category rest final_output
      end
  end.

(** Lines 101-106: the outer loop over [category_map.items()]. *)
Fixpoint rebuild_loop (email_map : dict Z EmailRecord)
    (items : list (str * json)) (final_output : CategoryAssignment) : res CategoryAssignment :=
  match items with
  | [] => inr final_output
  | (category, ids) :: rest =>
      let final_output := dict_set category [] final_output in
      let! ids := py_iter ids in
      let! final_output := resolve_ids email_map category ids final_output in
      rebuild_loop email_map rest final_output
  end.

(** Lines 100-108 *)
Definition rebuild (email_map : dict Z EmailRecord) (category_map : json) : res CategoryAssignment :=
  let! items := py_items category_map in
  rebuild_loop email_map items [].

Section Program.

Context {W : Type} (env : Env W).

(** Line 97: [json.loads(ai_response)]; [None] is not a string. *)
Definition loads_content (ai_response : option str) : res json :=
  match ai_response with
  | Some s => json_loads env s
  | None => inl TypeError
  end.

(** Lines 85-108: the body of the [try]. *)
Definition categorize_try (email_map : dict Z EmailRecord) (prompt_text : str) : M W CategoryAssignment :=
  let req := chat_request prompt_text in
  let* completion := perform (CallChat req) (chat_create env req) in
  let* ai_response := lift (first_content completion) in
  let* category_map := lift (loads_content ai_response) in
  lift (rebuild email_map category_map).

(** Lines 52-112 *)
Definition categorize_with_ai (emails : list EmailRecord) : M W CategoryAssignment :=
  match emails with
  | [] => ret []
  | _ :: _ =>
      let email_map := make_email_map emails in
      let prompt_text := build_prompt email_map in
      try_except (categorize_try email_map prompt_text)
        (fun e =>
           let* _ := log_error (lit "AI Processing Failed") e in
           ret [])
  end.

(* ===================================================================== *)
(** ** [callback]: fetch, count, sort, store *)
(* ===================================================================== *)

(** [msg["id"]] *)
Definition msg_id_of (msg : MsgRef) : res str :=
  match ref_id msg with
  | Some i => inr i
  | None => inl KeyError
  end.

(** Line 148: [data.get("payload", {}).get("headers", [])] *)
Definition headers_of (data : Message) : list Header :=
  match m_payload data with
  | Some p => default [] (p_headers p)
  | None => []
  end.

(** Lines 149-150:
    [next((h["value"] for h in headers if h["name"] == wanted), fallback)].
    The generator stops at the first match; a header without the key it is
    asked for raises [KeyError]. *)
Fixpoint header_value (wanted : str) (fallback : str) (headers : list Header) : res str :=
  match headers with
  | [] => inr fallback
  | h :: rest =>
      match h_name h with
      | None => inl KeyError
      | Some n =>
          if decide (n = wanted) then
            match h_value h with
            | Some v => inr v
            | None => inl KeyError
            end
          else header_value wanted fallback rest
      end
  end.

(** Line 154: [sender.split("<")[0].strip().replace(dq, '')], [dq] the
    one-character string holding a double quote. *)
Definition simple_sender (sender : str) : str :=
  remove_char ch_dquote (strip (split_head ch_lt sender)).

(** Lines 140-154: the two reads of one message and what is taken from
    them. *)
Definition read_message (msg : MsgRef) : M W MessageFields :=
  let* i := lift (msg_id_of msg) in
  let fmt := Metadata [lit "From"; lit "Subject"] in
  let* data := perform (CallGet i fmt) (messages_get env i fmt) in
  let* i2 := lift (msg_id_of msg) in
  let* snippet_res := perform (CallGet i2 Minimal) (messages_get env i2 Minimal) in
  let headers := headers_of data in
  let* subject := lift (header_value (lit "Subject") (lit "(No Subject)") headers) in
  let* sender := lift (header_value (lit "From") (lit "Unknown") headers) in
  let snippet := default [] (m_snippet snippet_res) in
  let sender_simple := simple_sender sender in
  ret {| f_subject := subject; f_snippet := snippet; f_sender_simple := sender_simple |}.

(** Lines 157-162: the dict appended to [extracted_emails]. *)
Definition make_record (msg : MsgRef) (f : MessageFields) : res EmailRecord :=
  let! i := msg_id_of msg in
  inr {| id := i; from := f_sender_simple f; subject := f_subject f;
         snippet := f_snippet f; sender_count := None |}.

(** Lines 140-162, the body of the inner [try], as the computation of the
    record of one message. *)
Definition fetch_message (msg : MsgRef) : M W EmailRecord :=
  let* f := read_message msg in
  lift (make_record msg f).

(** [sender_counter[k]] on a [defaultdict(int)] *)
Definition counter_get (sender_counter : gmap str Z) (k : str) : Z :=
  default 0 (sender_counter !! k).

(** Lines 138-164: one iteration of the fetch loop over the accumulators
    [extracted_emails] and [sender_counter].  The counter is written (line
    155) before the record is built (lines 157-162): an exception raised in
    between would leave the count written and no record appended. *)
Definition fetch_step (acc : list EmailRecord * gmap str Z) (msg : MsgRef)
    : M W (list EmailRecord * gmap str Z) :=
  try_except
    (let* f := read_message msg in
     let sender_counter :=
       <[f_sender_simple f := counter_get (snd acc) (f_sender_simple f) + 1]> (snd acc) in
     match make_record msg f with
     | inr e => ret (fst acc ++ [e], sender_counter)
     | inl _ => ret (fst acc, sender_counter)
     end)
    (fun _ => ret acc).

Fixpoint fetch_loop (msgs : list MsgRef) (acc : list EmailRecord * gmap str Z)
    : M W (list EmailRecord * gmap str Z) :=
  match msgs with
  | [] => ret acc
  | msg :: rest =>
      let* acc := fetch_step acc msg in
      fetch_loop rest acc
  end.

(** Lines 167-168 *)
Definition attach_counts (extracted_emails : list EmailRecord) (sender_counter : gmap str Z)
    : list EmailRecord :=
  (fun email =>
     {| id := id email; from := from email; subject := subject email;
        snippet := snippet email;
        sender_count := Some (counter_get sender_counter (from email)) |})
  <$> extracted_emails.

(** Lines 134-168: the fetch-and-count pass. *)
Definition fetch_and_count (msgs : list MsgRef) : M W (list EmailRecord) :=
  let* acc := fetch_loop msgs ([], ∅) in
  ret (attach_counts (fst acc) (snd acc)).

(** Lines 170-174: sort, store, answer. *)
Definition sort_and_store (extracted_emails : list EmailRecord) : M W Response :=
  let* structured_data := categorize_with_ai extracted_emails in
  let* s := get_session in
  let* _ := put_session {| credentials := credentials s; last_result := structured_data |} in
  ret (RedirectResponse FRONTEND_URL).

(** Lines 125-178 *)
Definition callback (url : str) : M W Response :=
  try_except
    (let* creds := perform (CallFetchToken url) (fetch_token env url) in
     let* s := get_session in
     let* _ := put_session {| credentials := Some creds; last_result := last_result s |} in
     let* _ := perform (CallBuild creds) (build env creds) in
     let* results := perform (CallList 60) (messages_list env 60) in
     let msgs := default [] (r_messages results) in
     let* extracted_emails := fetch_and_count msgs in
     sort_and_store extracted_emails)
    (fun e =>
       let* _ := log_error (lit "Callback Error") e in
       lift (json_error_response e)).

End Program.

(** Lines 180-182 *)
Definition get_result (s : Session) : ResultResponse :=
  {| status := lit "success"; categories := last_result s |}.

(* ===================================================================== *)
(** ** Vocabulary of the statements *)
(* ===================================================================== *)

(** The record of ordinal [n] in a batch numbered 1..N, if there is one. *)
Definition ordinal_lookup (emails : list EmailRecord) (n : Z) : option EmailRecord :=
  if (1 <=? n) && (n <=? Z.of_nat (length emails))
  then emails !! Z.to_nat (n - 1)
  else None.

(** The records that a sequence of ordinals resolves to, in order; an
    ordinal outside 1..N contributes nothing. *)
Definition resolved (emails : list EmailRecord) (ns : list Z) : list EmailRecord :=
  omap (ordinal_lookup emails) ns.

(** The integers that the entries of one category's value convert to. *)
Definition ordinals_of (ids : json) : res (list Z) :=
  let! l := py_iter ids in res_map py_int l.

(** What one item of the reply contributes: its key with the records its
    ids resolve to. *)
Definition category_entry (emails : list EmailRecord) (item : str * json)
    : res (str * list EmailRecord) :=
  let! ns := ordinals_of (snd item) in inr (fst item, resolved emails ns).

(** What the engine answers once the model's reply has been decoded to
    [category_map]: the rebuilt assignment, or [{}] when rebuilding raises. *)
Definition assignment_of (emails : list EmailRecord) (category_map : json) : CategoryAssignment :=
  match rebuild (make_email_map emails) category_map with
  | inr final_output => final_output
  | inl _ => []
  end.

(** In state [st] the model call for [emails] succeeds and its first
    choice decodes to [category_map]. *)
Definition model_replies {W : Type} (env : Env W) (emails : list EmailRecord)
    (st : state W) (category_map : json) : Prop :=
  exists completion w ai_response,
    chat_create env (chat_request (build_prompt (make_email_map emails))) (world st)
      = (inr completion, w)
    /\ first_content completion = inr (Some ai_response)
    /\ json_loads env ai_response = inr category_map.

(** The three ways the body of the [try] fails: the model call raises, its
    reply cannot be decoded, or rebuilding from the decoded reply raises. *)
Inductive categorization_failure {W : Type} (env : Env W) (emails : list EmailRecord)
    (st : state W) : Prop :=
  | call_raises (e : exn) (w : W) :
      chat_create env (chat_request (build_prompt (make_email_map emails))) (world st)
        = (inl e, w) ->
      categorization_failure env emails st
  | reply_unparsable (completion : Completion) (w : W) (e : exn) :
      chat_create env (chat_request (build_prompt (make_email_map emails))) (world st)
        = (inr completion, w) ->
      (let! c := first_content completion in loads_content env c) = inl e ->
      categorization_failure env emails st
  | processing_raises (category_map : json) (e : exn) :
      model_replies env emails st category_map ->
      rebuild (make_email_map emails) category_map = inl e ->
      categorization_failure env emails st.

(** The outbound calls to the language model recorded in a trace. *)
Definition is_chat_call (ev : call) : bool :=
  match ev with
  | CallChat _ => true
  | _ => false
  end.

Definition chat_calls (tr : list call) : list call := List.filter is_chat_call tr.

(** Every record of every category is a record of the batch. *)
Definition only_records_of (emails : list EmailRecord) (out : CategoryAssignment) : Prop :=
  Forall (fun entry => Forall (fun r => r ∈ emails) (snd entry)) out.

(** How many records of a batch carry the sender [k]. *)
Definition sender_occurrences (k : str) (recs : list EmailRecord) : Z :=
  Z.of_nat (length (filter (fun r => from r = k) recs)).

(** A header as the Gmail schema has it: a name and a value. *)
Definition well_formed_header (h : Header) : Prop :=
  is_Some (h_name h) /\ is_Some (h_value h).

(** No header of the list is called [wanted]. *)
Definition lacks_header (wanted : str) (headers : list Header) : Prop :=
  Forall (fun h => h_name h <> Some wanted) headers.

(** A record is listed under a category of an assignment. *)
Definition in_category (r : EmailRecord) (category : str) (out : CategoryAssignment) : Prop :=
  exists l, dict_get category out = Some l /\ r ∈ l.

(* ===================================================================== *)
(** ** Scripted collaborators, for the worked scenarios *)
(* ===================================================================== *)

(** A quoted word of JSON text. *)
Definition quoted (s : string) : str := [ch_dquote] ++ lit s ++ [ch_dquote].

(** A decoder that knows the listed texts and rejects every other one. *)
Definition loads_table (table : list (str * json)) (s : str) : res json :=
  match dict_get s table with
  | Some v => inr v
  | None => inl JSONDecodeError
  end.

(** A world without state: Gmail answers by [mail], the model by [reply],
    decoded by [table]. *)
Definition scripted (mail : str -> get_format -> res Message)
    (reply : res Completion) (table : list (str * json)) : Env unit :=
  {| fetch_token := fun url w => (inr (Creds url), w);
     build := fun _ w => (inr tt, w);
     messages_list := fun _ w => (inr {| r_messages := None |}, w);
     messages_get := fun i fmt w => (mail i fmt, w);
     chat_create := fun _ w => (reply, w);
     json_loads := loads_table table |}.

Definition no_mail (i : str) (fmt : get_format) : res Message :=
  inl (OtherError (lit "HttpError")).

Definition says (text : str) : res Completion :=
  inr {| choices := [ {| message_content := Some text |} ] |}.

Definition st0 : state unit :=
  {| world := tt; session := USER_SESSION_init; trace := [] |}.

Definition mk_email (i sender : string) (count : Z) : EmailRecord :=
  {| id := lit i; from := lit sender; subject := lit "Hello";
     snippet := lit "Body"; sender_count := Some count |}.

(** The model answers [text], which decodes to [v]. *)
Definition reply_env (text : str) (v : json) : Env unit :=
  scripted no_mail (says text) [(text, v)].

Definition e1 : EmailRecord := mk_email "m1" "Alice" 1.
Definition e2 : EmailRecord := mk_email "m2" "Bob" 1.

Definition action_required : str := lit "Action Required".

(** [{"Action Required": [1, 99]}] *)
Definition text_1_99 : str := lit "{" ++ quoted "Action Required" ++ lit ": [1, 99]}".
Definition json_1_99 : json := JDict [(action_required, JList [JInt 1; JInt 99])].

(** [{"Action Required": [1, "abc"]}] *)
Definition text_1_abc : str :=
  lit "{" ++ quoted "Action Required" ++ lit ": [1, " ++ quoted "abc" ++ lit "]}".
Definition json_1_abc : json :=
  JDict [(action_required, JList [JInt 1; JStr (lit "abc")])].

(** [{"A": [1], "B": [1]}] *)
Definition text_twice : str :=
  lit "{" ++ quoted "A" ++ lit ": [1], " ++ quoted "B" ++ lit ": [1]}".
Definition json_twice : json :=
  JDict [(lit "A", JList [JInt 1]); (lit "B", JList [JInt 1])].

(** [{"A": [1], "B": [2]}] *)
Definition text_apart : str :=
  lit "{" ++ quoted "A" ++ lit ": [1], " ++ quoted "B" ++ lit ": [2]}".
Definition json_apart : json :=
  JDict [(lit "A", JList [JInt 1]); (lit "B", JList [JInt 2])].

(** The model call fails. *)
Definition down_env : Env unit :=
  scripted no_mail (inl (OtherError (lit "APIConnectionError"))) [].

(** The model answers text that is not JSON. *)
Definition garbled_env : Env unit :=
  scripted no_mail (says (lit "Sure! Here are your categories:")) [].

Definition header (n v : string) : Header :=
  {| h_name := Some (lit n); h_value := Some (lit v) |}.

Definition metadata_of (headers : list Header) : Message :=
  {| m_payload := Some {| p_headers := Some headers |}; m_snippet := None |}.

Definition minimal_of (snippet : string) : Message :=
  {| m_payload := None; m_snippet := Some (lit snippet) |}.

(** Every message is from [Alice <a@x.com>]. *)
Definition alice_mail (i : str) (fmt : get_format) : res Message :=
  match fmt with
  | Metadata _ => inr (metadata_of [header "From" "Alice <a@x.com>"; header "Subject" "Hi"])
  | Minimal => inr (minimal_of "See you")
  end.

(** As [alice_mail], but reading message [m3] fails. *)
Definition flaky_mail (i : str) (fmt : get_format) : res Message :=
  if decide (i = lit "m3") then inl (OtherError (lit "HttpError")) else alice_mail i fmt.

(** Messages carry no header at all. *)
Definition bare_mail (i : str) (fmt : get_format) : res Message :=
  match fmt with
  | Metadata _ => inr (metadata_of [])
  | Minimal => inr (minimal_of "See you")
  end.

Definition mail_env (mail : str -> get_format -> res Message) : Env unit :=
  scripted mail (inl (OtherError (lit "APIConnectionError"))) [].

Definition ref (i : string) : MsgRef := {| ref_id := Some (lit i) |}.

(** The model answers [{}]. *)
Definition silent_env : Env unit := scripted no_mail (says (lit "{}")) [(lit "{}", JDict [])].

(* ===================================================================== *)
(** ** Vocabulary of the further properties *)
(* ===================================================================== *)

(** How often a character occurs in a string. *)
Definition count_char (c : char) (s : str) : nat :=
  length (filter (fun x => x = c) s).

(** One of the characters [0] to [9]. *)
Definition ascii_digit (c : char) : bool := in_range 48 57 c.

(** The ordinal is one of 1..N. *)
Definition in_batch (emails : list EmailRecord) (n : Z) : bool :=
  (1 <=? n) && (n <=? Z.of_nat (length emails)).

(** The reads of the Gmail API recorded in a trace. *)
Definition is_get_call (ev : call) : bool :=
  match ev with
  | CallGet _ _ => true
  | _ => false
  end.

(** A header that has a name, and not the name [wanted]. *)
Definition named_otherwise (wanted : str) (h : Header) : Prop :=
  exists n, h_name h = Some n /\ n <> wanted.

(** The state in which [callback] starts fetching, once the token exchange,
    the client construction and the listing have succeeded and left the
    world as [w]. *)
Definition state_after_listing {W : Type} (url : str) (creds : Credentials) (w : W)
    (st : state W) : state W :=
  {| world := w;
     session := {| credentials := Some creds; last_result := last_result (session st) |};
     trace := ((trace st ++ [CallFetchToken url]) ++ [CallBuild creds]) ++ [CallList 60] |}.

(** A world without state whose inbox lists [listing]. *)
Definition inbox_env (listing : list MsgRef) (mail : str -> get_format -> res Message)
    (reply : res Completion) (table : list (str * json)) : Env unit :=
  {| fetch_token := fun url w => (inr (Creds url), w);
     build := fun _ w => (inr tt, w);
     messages_list := fun _ w => (inr {| r_messages := Some listing |}, w);
     messages_get := fun i fmt w => (mail i fmt, w);
     chat_create := fun _ w => (reply, w);
     json_loads := loads_table table |}.

(** The token exchange is refused with the error text [what]. *)
Definition denied_env (what : str) : Env unit :=
  {| fetch_token := fun _ w => (inl (OtherError what), w);
     build := fun _ w => (inr tt, w);
     messages_list := fun _ w => (inr {| r_messages := None |}, w);
     messages_get := fun i fmt w => (no_mail i fmt, w);
     chat_create := fun _ w => (inl (OtherError (lit "APIConnectionError")), w);
     json_loads := loads_table [] |}.

(* ===================================================================== *)
(** * Properties *)
(* ===================================================================== *)

(** ** The builtins on sample inputs *)

Example int_of_str_samples :
  List.map (fun s => int_of_str (lit s))
    ["1_0"; "_1"; "1_"; "1__0"; " 1 "; "+1"; "-1"; "+ 1"; ""; "+"; "1.0"; "007"; "abc"; "-0"]%string
  = [inr 10; inl ValueError; inl ValueError; inl ValueError; inr 1; inr 1; inr (-1);
     inl ValueError; inl ValueError; inl ValueError; inl ValueError; inr 7;
     inl ValueError; inr 0].
Proof. vm_compute. reflexivity. Qed.

Example int_of_str_unicode :
  int_of_str [28; 49]%N = inl ValueError
  /\ int_of_str [160; 49; 12288]%N = inr 1
  /\ int_of_str [1635; 1636]%N = inr 34.
Proof. vm_compute. repeat split. Qed.

Example int_of_float_truncates :
  int_of_float (S754_finite true 15 (-3)) = inr (-1)
  /\ int_of_float (S754_finite false 1 1) = inr 2.
Proof. vm_compute. split; reflexivity. Qed.

Example str_of_int_samples :
  str_of_int 120 = lit "120" /\ str_of_int (-5) = lit "-5" /\ str_of_int 0 = lit "0".
Proof. vm_compute. repeat split. Qed.

Example simple_sender_samples :
  simple_sender (lit "Alice <a@x.com>") = lit "Alice"
  /\ simple_sender (quoted "Bob, X" ++ lit " <b@y>") = lit "Bob, X"
  /\ simple_sender (lit "<a@x>") = []
  /\ simple_sender (lit "Unknown") = lit "Unknown".
Proof. vm_compute. repeat split. Qed.

(** ** Dictionaries *)

Section DictFacts.

Context {K V : Type} `{EqDecision K}.

Lemma dict_get_set_eq (k : K) (v : V) (d : dict K V) :
  dict_get k (dict_set k v d) = Some v.
Proof.
  induction d as [|[k' v'] d IH]; simpl.
  - rewrite decide_True; done.
  - destruct (decide (k = k')) as [->|Hne]; simpl.
    + rewrite decide_True; done.
    + rewrite decide_False; done.
Qed.

Lemma dict_get_set_ne (k k' : K) (v : V) (d : dict K V) :
  k <> k' -> dict_get k' (dict_set k v d) = dict_get k' d.
Proof.
  intros Hne. induction d as [|[k0 v0] d IH]; simpl.
  - rewrite decide_False; [done | congruence].
  - destruct (decide (k = k0)) as [->|Hne0]; simpl.
    + rewrite !decide_False; [done | congruence | congruence].
    + destruct (decide (k' = k0)); done.
Qed.

Lemma dict_set_set (k : K) (v v' : V) (d : dict K V) :
  dict_set k v' (dict_set k v d) = dict_set k v' d.
Proof.
  induction d as [|[k0 v0] d IH]; simpl.
  - rewrite decide_True; done.
  - destruct (decide (k = k0)) as [->|Hne]; simpl.
    + rewrite decide_True; done.
    + rewrite decide_False; [|done]. by rewrite IH.
Qed.

Lemma dict_set_id (k : K) (v : V) (d : dict K V) :
  dict_get k d = Some v -> dict_set k v d = d.
Proof.
  induction d as [|[k0 v0] d IH]; simpl; [done|].
  destruct (decide (k = k0)) as [->|Hne].
  - by intros [= ->].
  - intros Hg. by rewrite IH.
Qed.

Lemma dict_set_fresh (k : K) (v : V) (d : dict K V) :
  k ∉ dict_keys d -> dict_set k v d = d ++ [(k, v)].
Proof.
  unfold dict_keys. induction d as [|[k0 v0] d IH]; csimpl; [done|].
  rewrite not_elem_of_cons. intros [Hne Hk].
  rewrite decide_False; [|done]. by rewrite IH.
Qed.

Lemma dict_get_elem (k : K) (v : V) (d : dict K V) :
  dict_get k d = Some v -> (k, v) ∈ d.
Proof.
  induction d as [|[k0 v0] d IH]; simpl; [done|].
  destruct (decide (k = k0)) as [->|Hne].
  - intros [= ->]. apply elem_of_cons; by left.
  - intros Hg. apply elem_of_cons; right; auto.
Qed.

Lemma dict_get_NoDup (k : K) (v : V) (d : dict K V) :
  NoDup (dict_keys d) -> (k, v) ∈ d -> dict_get k d = Some v.
Proof.
  unfold dict_keys. induction d as [|[k0 v0] d IH]; csimpl.
  - intros _ Hin. by apply elem_of_nil in Hin.
  - intros Hnd0 Hin.
    pose proof (NoDup_cons_1_1 _ _ Hnd0) as Hk0.
    pose proof (NoDup_cons_1_2 _ _ Hnd0) as Hnd.
    apply elem_of_cons in Hin as [[= -> ->]|Hin].
    + rewrite decide_True; done.
    + rewrite decide_False; [by apply IH|].
      intros ->. apply Hk0.
      apply (list_elem_of_fmap_2 fst) in Hin. exact Hin.
Qed.

Lemma dict_set_elem (k : K) (v : V) (d : dict K V) (k' : K) (v' : V) :
  (k', v') ∈ dict_set k v d -> (k', v') ∈ d \/ v' = v.
Proof.
  induction d as [|[k0 v0] d IH]; simpl.
  - intros Hin. apply list_elem_of_singleton in Hin. right. congruence.
  - destruct (decide (k = k0)) as [->|Hne]; intros Hin.
    + apply elem_of_cons in Hin as [[= -> ->]|Hin]; [by right|].
      left. apply elem_of_cons; by right.
    + apply elem_of_cons in Hin as [Heq|Hin].
      * left. apply elem_of_cons; by left.
      * destruct (IH Hin) as [?|?]; [left; apply elem_of_cons; by right | by right].
Qed.

End DictFacts.

(** ** The ordinal map *)

Lemma enumerate_fold_get (l : list EmailRecord) :
  forall (start : Z) (acc : dict Z EmailRecord) (n : Z),
    (forall k, start <= k -> dict_get k acc = None) ->
    dict_get n (fold_left (fun d kv => dict_set (fst kv) (snd kv) d) (enumerate l start) acc)
    = if (start <=? n) && (n <? start + Z.of_nat (length l))
      then l !! Z.to_nat (n - start)
      else dict_get n acc.
Proof.
  induction l as [|a l IH]; intros start acc n Hacc; simpl fold_left.
  - simpl length. rewrite Z.add_0_r.
    destruct (Z.leb_spec start n), (Z.ltb_spec n start); simpl; try done; lia.
  - rewrite IH.
    + simpl length.
      destruct (Z.leb_spec (start + 1) n), (Z.ltb_spec n (start + 1 + Z.of_nat (length l)));
        destruct (Z.leb_spec start n), (Z.ltb_spec n (start + Z.of_nat (S (length l))));
        simpl; try lia.
      * replace (Z.to_nat (n - start)) with (S (Z.to_nat (n - (start + 1)))) by lia.
        done.
      * rewrite dict_get_set_ne by lia. done.
      * assert (n = start) as -> by lia.
        rewrite dict_get_set_eq. by replace (start - start) with 0 by lia.
      * rewrite dict_get_set_ne by lia. done.
    + intros k Hk. rewrite dict_get_set_ne by lia. apply Hacc. lia.
Qed.

(** Looking an ordinal up in [email_map] is indexing the batch from 1. *)
Lemma make_email_map_get (emails : list EmailRecord) (n : Z) :
  dict_get n (make_email_map emails) = ordinal_lookup emails n.
Proof.
  unfold make_email_map, dict_of_pairs, ordinal_lookup.
  rewrite enumerate_fold_get by done.
  replace (n <? 1 + Z.of_nat (length emails)) with (n <=? Z.of_nat (length emails)) by lia.
  destruct ((1 <=? n) && (n <=? Z.of_nat (length emails))); done.
Qed.

Lemma ordinal_lookup_elem (emails : list EmailRecord) (n : Z) (r : EmailRecord) :
  ordinal_lookup emails n = Some r -> r ∈ emails.
Proof.
  unfold ordinal_lookup.
  destruct ((1 <=? n) && (n <=? Z.of_nat (length emails))); [|done].
  intros Hl. apply list_elem_of_lookup. eauto.
Qed.

Lemma ordinal_lookup_range (emails : list EmailRecord) (n : Z) :
  ~ (1 <= n <= Z.of_nat (length emails)) -> ordinal_lookup emails n = None.
Proof.
  intros Hr. unfold ordinal_lookup.
  destruct (Z.leb_spec 1 n), (Z.leb_spec n (Z.of_nat (length emails))); simpl; try done; lia.
Qed.

Lemma ordinal_lookup_inj (emails : list EmailRecord) (n m : Z) (r : EmailRecord) :
  NoDup emails ->
  ordinal_lookup emails n = Some r -> ordinal_lookup emails m = Some r -> n = m.
Proof.
  unfold ordinal_lookup. intros Hnd.
  destruct (Z.leb_spec 1 n), (Z.leb_spec n (Z.of_nat (length emails))); simpl; try done.
  destruct (Z.leb_spec 1 m), (Z.leb_spec m (Z.of_nat (length emails))); simpl; try done.
  intros Hn Hm.
  pose proof (NoDup_lookup _ _ _ _ Hnd Hn Hm). lia.
Qed.

(** ** The rebuilding loops *)

(** The inner loop appends, to the list already under [category], the
    records that the ids resolve to; it raises exactly when a conversion
    does. *)
Lemma resolve_ids_spec (emails : list EmailRecord) (category : str) (ids : list json) :
  forall (final_output : CategoryAssignment) (l0 : list EmailRecord),
    dict_get category final_output = Some l0 ->
    resolve_ids (make_email_map emails) category ids final_output
    = let! ns := res_map py_int ids in
      inr (dict_set category (l0 ++ resolved emails ns) final_output).
Proof.
  induction ids as [|eid ids IH]; intros out l0 Hget; simpl.
  - unfold resolved. simpl. rewrite app_nil_r.
    by rewrite dict_set_id.
  - destruct (py_int eid) as [e|n]; simpl; [done|].
    rewrite make_email_map_get. unfold resolved. simpl.
    destruct (ordinal_lookup emails n) as [r|] eqn:Hr; simpl.
    + unfold dict_append. rewrite Hget. simpl.
      rewrite (IH _ (l0 ++ [r])) by apply dict_get_set_eq.
      destruct (res_map py_int ids) as [e|ns]; simpl; [done|].
      rewrite dict_set_set, <- app_assoc, Hr. done.
    + rewrite (IH _ l0 Hget).
      destruct (res_map py_int ids); simpl; [done|]. by rewrite Hr.
Qed.

(** For a reply with distinct keys (any parsed JSON object), the outer loop
    adds one entry per item, in order. *)
Lemma rebuild_loop_spec (emails : list EmailRecord) (items : list (str * json)) :
  forall (final_output : CategoryAssignment),
    NoDup (dict_keys items) ->
    (forall k, k ∈ dict_keys items -> k ∉ dict_keys final_output) ->
    rebuild_loop (make_email_map emails) items final_output
    = let! entries := res_map (category_entry emails) items in
      inr (final_output ++ entries).
Proof.
  unfold dict_keys.
  induction items as [|[c ids] items IH]; intros out Hnd Hfresh; simpl.
  - by rewrite app_nil_r.
  - csimpl in *.
    pose proof (NoDup_cons_1_1 _ _ Hnd) as Hc.
    pose proof (NoDup_cons_1_2 _ _ Hnd) as Hnd'.
    assert (c ∉ dict_keys out) as Hcout by (apply Hfresh, elem_of_cons; by left).
    set (rest := res_map (category_entry emails) items) in *.
    unfold category_entry at 1, ordinals_of. simpl.
    destruct (py_iter ids) as [e|l]; simpl; [done|].
    rewrite (resolve_ids_spec emails c l _ []) by apply dict_get_set_eq.
    destruct (res_map py_int l) as [e|ns]; simpl; [done|].
    rewrite dict_set_set, (dict_set_fresh c _ out Hcout).
    rewrite IH; [| done |].
    + destruct rest; simpl; [done|].
      by rewrite <- app_assoc.
    + intros k Hk. unfold dict_keys. rewrite fmap_app. csimpl.
      rewrite elem_of_app, list_elem_of_singleton.
      intros [Hin| ->]; [|done].
      apply (Hfresh k); [apply elem_of_cons; by right | exact Hin].
Qed.

Lemma rebuild_spec (emails : list EmailRecord) (items : list (str * json)) :
  NoDup (dict_keys items) ->
  rebuild (make_email_map emails) (JDict items)
  = res_map (category_entry emails) items.
Proof.
  intros Hnd. unfold rebuild. simpl.
  rewrite rebuild_loop_spec; [| done | intros k _; apply not_elem_of_nil].
  destruct (res_map (category_entry emails) items); done.
Qed.

Lemma res_map_inr_elem {A B : Type} (f : A -> res B) (l : list A) (ys : list B) (x : A) :
  res_map f l = inr ys -> x ∈ l -> exists y, f x = inr y /\ y ∈ ys.
Proof.
  revert ys. induction l as [|a l IH]; intros ys Hm Hin.
  - by apply elem_of_nil in Hin.
  - simpl in Hm. destruct (f a) as [e|b] eqn:Hfa; simpl in Hm; [done|].
    destruct (res_map f l) as [e|bs]; simpl in Hm; [done|].
    injection Hm as <-.
    apply elem_of_cons in Hin as [->|Hin].
    + exists b. split; [done | apply elem_of_cons; by left].
    + destruct (IH bs eq_refl Hin) as (y & Hy & Hyin).
      exists y. split; [done | apply elem_of_cons; by right].
Qed.

Lemma res_map_inr_back {A B : Type} (f : A -> res B) (l : list A) (ys : list B) (y : B) :
  res_map f l = inr ys -> y ∈ ys -> exists x, x ∈ l /\ f x = inr y.
Proof.
  revert ys. induction l as [|a l IH]; intros ys Hm Hin; simpl in Hm.
  - injection Hm as <-. by apply elem_of_nil in Hin.
  - destruct (f a) as [e|b] eqn:Hfa; simpl in Hm; [done|].
    destruct (res_map f l) as [e|bs]; simpl in Hm; [done|].
    injection Hm as <-.
    apply elem_of_cons in Hin as [->|Hin].
    + exists a. split; [apply elem_of_cons; by left | done].
    + destruct (IH bs eq_refl Hin) as (x & Hx & Hfx).
      exists x. split; [apply elem_of_cons; by right | done].
Qed.

Lemma res_map_total {A B : Type} (f : A -> res B) (l : list A) :
  (forall x, x ∈ l -> exists y, f x = inr y) -> exists ys, res_map f l = inr ys.
Proof.
  induction l as [|a l IH]; intros Hall; simpl.
  - by exists [].
  - destruct (Hall a) as [b Hb]; [apply elem_of_cons; by left|].
    destruct IH as [bs Hbs]; [intros x Hx; apply Hall, elem_of_cons; by right|].
    rewrite Hb, Hbs. simpl. by exists (b :: bs).
Qed.

Lemma res_map_raises {A B : Type} (f : A -> res B) (l : list A) (x : A) (e : exn) :
  x ∈ l -> f x = inl e -> exists e', res_map f l = inl e'.
Proof.
  induction l as [|a l IH]; intros Hin Hfx.
  - by apply elem_of_nil in Hin.
  - simpl. apply elem_of_cons in Hin as [<-|Hin].
    + rewrite Hfx. simpl. by exists e.
    + destruct (f a); simpl; [by eexists|].
      destruct (IH Hin Hfx) as [e' ->]. simpl. by exists e'.
Qed.

Lemma category_entries_keys (emails : list EmailRecord) (items : list (str * json))
    (entries : CategoryAssignment) :
  res_map (category_entry emails) items = inr entries ->
  dict_keys entries = dict_keys items.
Proof.
  unfold dict_keys. revert entries.
  induction items as [|[c ids] items IH]; intros entries Hm; simpl in Hm.
  - by injection Hm as <-.
  - unfold category_entry at 1 in Hm. simpl in Hm.
    destruct (ordinals_of ids) as [e|ns]; simpl in Hm; [done|].
    destruct (res_map (category_entry emails) items) as [e|bs]; simpl in Hm; [done|].
    injection Hm as <-. csimpl. f_equal. by apply IH.
Qed.

Lemma resolved_elem (emails : list EmailRecord) (ns : list Z) (r : EmailRecord) :
  r ∈ resolved emails ns <-> exists n, n ∈ ns /\ ordinal_lookup emails n = Some r.
Proof. unfold resolved. apply list_elem_of_omap. Qed.

(** ** The engine as a whole *)

Section Engine.

Context {W : Type} (env : Env W).

(** The engine always returns: either [{}] or what [rebuild] made of some
    decoded reply. *)
Lemma categorize_returns (emails : list EmailRecord) (st : state W) :
  exists out, fst (categorize_with_ai env emails st) = inr out
    /\ (out = [] \/ exists v, rebuild (make_email_map emails) v = inr out).
Proof.
  destruct emails as [|e0 emails]; simpl.
  - exists []. split; [done | by left].
  - unfold try_except, categorize_try, bind, perform, lift.
    destruct (chat_create env _ (world st)) as [[e|completion] w]; simpl.
    + exists []. split; [done | by left].
    + destruct (first_content completion) as [e|c]; simpl.
      { exists []. split; [done | by left]. }
      destruct (loads_content env c) as [e|v]; simpl.
      { exists []. split; [done | by left]. }
      destruct (rebuild (make_email_map (e0 :: emails)) v) as [e|out] eqn:Hr; simpl.
      * exists []. split; [done | by left].
      * exists out. split; [done | right; by exists v].
Qed.

(** When the model's reply decodes to [v], the engine answers
    [assignment_of emails v]. *)
Lemma categorize_reply (emails : list EmailRecord) (st : state W) (v : json) :
  emails <> [] ->
  model_replies env emails st v ->
  fst (categorize_with_ai env emails st) = inr (assignment_of emails v).
Proof.
  intros Hne (completion & w & s & Hcall & Hfirst & Hloads).
  destruct emails as [|e0 emails]; [done|].
  unfold categorize_with_ai, try_except, categorize_try, bind, perform, lift.
  rewrite Hcall. simpl. rewrite Hfirst. simpl. rewrite Hloads. simpl.
  unfold assignment_of.
  destruct (rebuild (make_email_map (e0 :: emails)) v); done.
Qed.

(** A non-empty batch costs exactly one call of the model. *)
Lemma categorize_calls_once (emails : list EmailRecord) (st : state W) :
  emails <> [] ->
  chat_calls (trace (snd (categorize_with_ai env emails st)))
  = chat_calls (trace st)
      ++ [CallChat (chat_request (build_prompt (make_email_map emails)))].
Proof.
  intros Hne. destruct emails as [|e0 emails]; [done|].
  unfold categorize_with_ai, try_except, categorize_try, bind, perform, lift,
    log_error, ret, chat_calls.
  destruct (chat_create env _ (world st)) as [[e|completion] w]; simpl.
  - rewrite !List.filter_app. simpl. by rewrite app_nil_r.
  - destruct (first_content completion) as [e|c]; simpl;
      [rewrite !List.filter_app; simpl; by rewrite app_nil_r|].
    destruct (loads_content env c) as [e|v]; simpl;
      [rewrite !List.filter_app; simpl; by rewrite app_nil_r|].
    destruct (rebuild (make_email_map (e0 :: emails)) v); simpl;
      rewrite !List.filter_app; simpl; by rewrite ?app_nil_r.
Qed.

End Engine.

(** ** No fabricated records *)

Lemma only_records_set (emails : list EmailRecord) (c : str) (l : list EmailRecord)
    (out : CategoryAssignment) :
  only_records_of emails out -> Forall (fun r => r ∈ emails) l ->
  only_records_of emails (dict_set c l out).
Proof.
  unfold only_records_of. rewrite !Forall_forall. intros Hout Hl [c' l'] Hin.
  destruct (dict_set_elem _ _ _ _ _ Hin) as [Hold| ->]; simpl.
  - apply (Hout _ Hold).
  - apply Forall_forall, Hl.
Qed.

Lemma only_records_get (emails : list EmailRecord) (c : str) (l : list EmailRecord)
    (out : CategoryAssignment) :
  only_records_of emails out -> dict_get c out = Some l ->
  Forall (fun r => r ∈ emails) l.
Proof.
  unfold only_records_of. rewrite Forall_forall. intros Hout Hget.
  apply (Hout (c, l)), dict_get_elem, Hget.
Qed.

Lemma resolve_ids_only_records (emails : list EmailRecord) (c : str) (ids : list json) :
  forall out out',
    only_records_of emails out ->
    resolve_ids (make_email_map emails) c ids out = inr out' ->
    only_records_of emails out'.
Proof.
  induction ids as [|eid ids IH]; intros out out' Hout Hres; simpl in Hres.
  - by injection Hres as <-.
  - destruct (py_int eid) as [e|n]; simpl in Hres; [done|].
    rewrite make_email_map_get in Hres.
    destruct (ordinal_lookup emails n) as [r|] eqn:Hr; [|by eapply IH].
    unfold dict_append in Hres.
    destruct (dict_get c out) as [l|] eqn:Hget; simpl in Hres; [|done].
    eapply IH; [|exact Hres].
    apply only_records_set; [done|].
    apply Forall_app. split; [by eapply only_records_get|].
    apply Forall_singleton. by eapply ordinal_lookup_elem.
Qed.

Lemma rebuild_loop_only_records (emails : list EmailRecord) (items : list (str * json)) :
  forall out out',
    only_records_of emails out ->
    rebuild_loop (make_email_map emails) items out = inr out' ->
    only_records_of emails out'.
Proof.
  induction items as [|[c ids] items IH]; intros out out' Hout Hres; simpl in Hres.
  - by injection Hres as <-.
  - destruct (py_iter ids) as [e|l]; simpl in Hres; [done|].
    destruct (resolve_ids _ c l _) as [e|out1] eqn:H1; simpl in Hres; [done|].
    eapply IH; [|exact Hres].
    eapply resolve_ids_only_records; [|exact H1].
    apply only_records_set; [done | constructor].
Qed.

Lemma rebuild_only_records (emails : list EmailRecord) (v : json) (out : CategoryAssignment) :
  rebuild (make_email_map emails) v = inr out -> only_records_of emails out.
Proof.
  unfold rebuild. destruct (py_items v) as [e|items]; simpl; [done|].
  apply rebuild_loop_only_records. constructor.
Qed.

(** C7: whatever the model answers, the engine returns an assignment, and
    every record under every category of it is a member of the input
    sequence: no record is fabricated. *)
Theorem output_records_come_from_input {W : Type} (env : Env W)
    (emails : list EmailRecord) (st : state W) :
  exists out,
    fst (categorize_with_ai env emails st) = inr out
    /\ only_records_of emails out.
Proof.
  destruct (categorize_returns env emails st) as (out & Hout & [->|[v Hv]]).
  - exists []. split; [done | constructor].
  - exists out. split; [done | by eapply rebuild_only_records].
Qed.

(** ** The empty batch *)

(** C5: for the empty input sequence the engine returns [{}] at once and
    leaves the world and the trace as they were, so no call reached the
    model; a non-empty batch, by contrast, adds one model call to the
    trace. *)
Theorem empty_batch_short_circuits {W : Type} (env : Env W) (st : state W) :
  categorize_with_ai env [] st = (inr [], st)
  /\ forall (e : EmailRecord) (emails : list EmailRecord),
       chat_calls (trace (snd (categorize_with_ai env (e :: emails) st)))
       = chat_calls (trace st)
           ++ [CallChat (chat_request (build_prompt (make_email_map (e :: emails))))].
Proof.
  split; [reflexivity|].
  intros e emails. by apply categorize_calls_once.
Qed.

(** ** Failures of the model call *)

(** Every failure of the body of the [try] ends in the handler. *)
Lemma failure_is_caught {W : Type} (env : Env W)
    (emails : list EmailRecord) (st : state W) :
  categorization_failure env emails st ->
  fst (categorize_with_ai env emails st) = inr [].
Proof.
  intros Hfail. destruct emails as [|e0 emails]; [done|].
  unfold categorize_with_ai, try_except, categorize_try, bind, perform, lift.
  destruct Hfail as [e w Hcall | completion w e Hcall Hdec | v e Hrep Hreb].
  - rewrite Hcall. done.
  - rewrite Hcall. simpl.
    destruct (first_content completion) as [e'|c]; simpl in *; [done|].
    rewrite Hdec. done.
  - destruct Hrep as (completion & w & s & Hcall & Hfirst & Hloads).
    rewrite Hcall. simpl. rewrite Hfirst. simpl. rewrite Hloads. simpl.
    rewrite Hreb. done.
Qed.

(** C3: for every batch, when the model call raises, or its reply cannot
    be decoded, or rebuilding from the decoded reply raises, the engine
    returns the empty assignment; nothing is raised to the caller. *)
Theorem failure_yields_empty_assignment {W : Type} (env : Env W)
    (emails : list EmailRecord) (st : state W) :
  categorization_failure env emails st ->
  fst (categorize_with_ai env emails st) = inr [].
Proof. apply failure_is_caught. Qed.

Lemma failure_yields_empty_assignment_witness :
  fst (categorize_with_ai down_env [e1; e2] st0) = inr []
  /\ fst (categorize_with_ai garbled_env [e1; e2] st0) = inr []
  /\ fst (categorize_with_ai (reply_env text_1_abc json_1_abc) [e1; e2] st0) = inr [].
Proof.
  split; [|split].
  - apply failure_yields_empty_assignment.
    eapply call_raises. reflexivity.
  - apply failure_yields_empty_assignment.
    eapply reply_unparsable; reflexivity.
  - apply failure_yields_empty_assignment.
    eapply (processing_raises _ _ _ json_1_abc).
    + eexists _, _, _. split; [reflexivity|]. split; reflexivity.
    + reflexivity.
Defined.

(** ** Ordinals that are not in the map *)

Lemma resolve_ids_skip (emails : list EmailRecord) (c : str)
    (pre post : list json) (bad : json) (n : Z) :
  py_int bad = inr n ->
  ordinal_lookup emails n = None ->
  forall out,
    resolve_ids (make_email_map emails) c (pre ++ bad :: post) out
    = resolve_ids (make_email_map emails) c (pre ++ post) out.
Proof.
  intros Hint Hmiss. induction pre as [|eid pre IH]; intros out; simpl.
  - rewrite Hint. simpl. by rewrite make_email_map_get, Hmiss.
  - destruct (py_int eid) as [e|m]; simpl; [done|].
    destruct (dict_get m (make_email_map emails)); [|apply IH].
    destruct (dict_append c e out); simpl; [done | apply IH].
Qed.

Lemma rebuild_loop_skip (emails : list EmailRecord) (c : str)
    (pre post : list json) (bad : json) (n : Z) (items1 items2 : list (str * json)) :
  py_int bad = inr n ->
  ordinal_lookup emails n = None ->
  forall out,
    rebuild_loop (make_email_map emails)
      (items1 ++ (c, JList (pre ++ bad :: post)) :: items2) out
    = rebuild_loop (make_email_map emails)
        (items1 ++ (c, JList (pre ++ post)) :: items2) out.
Proof.
  intros Hint Hmiss. induction items1 as [|[c1 ids1] items1 IH]; intros out; simpl.
  - by rewrite (resolve_ids_skip emails c pre post bad n Hint Hmiss).
  - destruct (py_iter ids1); simpl; [done|].
    destruct (resolve_ids _ c1 _ _); simpl; [done | apply IH].
Qed.

(** C6: an ordinal that is not one of 1..N is dropped: the engine answers
    exactly what it would answer had the reply not listed that entry, so
    the entry puts nothing, whole or partial, under any category.  In the
    scenario, [{"Action Required": [1, 99]}] over two records gives that
    category with the single record of ordinal 1. *)
Theorem absent_ordinal_is_dropped {W : Type} (env : Env W)
    (emails : list EmailRecord) (st : state W)
    (items1 items2 : list (str * json)) (category : str)
    (pre post : list json) (bad : json) (n : Z) :
  emails <> [] ->
  py_int bad = inr n ->
  ~ (1 <= n <= Z.of_nat (length emails)) ->
  model_replies env emails st
    (JDict (items1 ++ (category, JList (pre ++ bad :: post)) :: items2)) ->
  fst (categorize_with_ai env emails st)
  = inr (assignment_of emails
           (JDict (items1 ++ (category, JList (pre ++ post)) :: items2)))
  /\ fst (categorize_with_ai (reply_env text_1_99 json_1_99) [e1; e2] st0)
     = inr [(action_required, [e1])].
Proof.
  intros Hne Hint Hrange Hrep. split; [|reflexivity].
  rewrite (categorize_reply env emails st _ Hne Hrep).
  unfold assignment_of, rebuild. simpl.
  by rewrite (rebuild_loop_skip emails category pre post bad n items1 items2 Hint
                (ordinal_lookup_range emails n Hrange)).
Qed.

Lemma absent_ordinal_is_dropped_witness :
  [e1; e2] <> []
  /\ py_int (JInt 99) = inr 99
  /\ ~ (1 <= 99 <= Z.of_nat (length [e1; e2]))
  /\ fst (categorize_with_ai (reply_env text_1_99 json_1_99) [e1; e2] st0)
     = inr (assignment_of [e1; e2] (JDict [(action_required, JList [JInt 1])])).
Proof.
  split; [done|]. split; [reflexivity|]. split; [simpl; lia|].
  apply (absent_ordinal_is_dropped (reply_env text_1_99 json_1_99) [e1; e2] st0
           [] [] action_required [JInt 1] [] (JInt 99) 99).
  - done.
  - reflexivity.
  - simpl. lia.
  - eexists _, _, _. split; [reflexivity|]. split; reflexivity.
Defined.

(** ** Ids that do not convert, ids out of range *)

Lemma categorize_object_reply {W : Type} (env : Env W) (emails : list EmailRecord)
    (st : state W) (items : list (str * json)) :
  emails <> [] ->
  NoDup (dict_keys items) ->
  model_replies env emails st (JDict items) ->
  fst (categorize_with_ai env emails st)
  = inr (match res_map (category_entry emails) items with
         | inr entries => entries
         | inl _ => []
         end).
Proof.
  intros Hne Hnd Hrep.
  rewrite (categorize_reply env emails st _ Hne Hrep).
  unfold assignment_of. by rewrite rebuild_spec.
Qed.

Lemma category_entries_get (emails : list EmailRecord) (items : list (str * json))
    (entries : CategoryAssignment) (c : str) (ids : json) (ns : list Z) :
  NoDup (dict_keys items) ->
  res_map (category_entry emails) items = inr entries ->
  (c, ids) ∈ items ->
  ordinals_of ids = inr ns ->
  dict_get c entries = Some (resolved emails ns).
Proof.
  intros Hnd Hm Hin Hns.
  destruct (res_map_inr_elem _ _ _ _ Hm Hin) as (y & Hy & Hyin).
  unfold category_entry in Hy. simpl in Hy. rewrite Hns in Hy. simpl in Hy.
  injection Hy as <-.
  apply dict_get_NoDup; [|done].
  by rewrite (category_entries_keys emails items entries Hm).
Qed.

Lemma category_entries_back (emails : list EmailRecord) (items : list (str * json))
    (entries : CategoryAssignment) (c : str) (l : list EmailRecord) :
  res_map (category_entry emails) items = inr entries ->
  dict_get c entries = Some l ->
  exists ids ns, (c, ids) ∈ items /\ ordinals_of ids = inr ns /\ l = resolved emails ns.
Proof.
  intros Hm Hget. apply dict_get_elem in Hget.
  destruct (res_map_inr_back _ _ _ _ Hm Hget) as ([c' ids] & Hin & Hentry).
  unfold category_entry in Hentry. simpl in Hentry.
  destruct (ordinals_of ids) as [e|ns] eqn:Hns; simpl in Hentry; [done|].
  injection Hentry as -> <-. by exists ids, ns.
Qed.

(** C1, as stated, fails on a non-numeric id: over two records the reply
    [{"Action Required": [1, "abc"]}] holds the valid entry 1 and the entry
    "abc", which [int] rejects; the engine answers [{}], so the record of
    ordinal 1 is under no category. *)
Lemma non_numeric_id_loses_valid_entries :
  model_replies (reply_env text_1_abc json_1_abc) [e1; e2] st0 json_1_abc
  /\ py_int (JStr (lit "abc")) = inl ValueError
  /\ py_int (JInt 1) = inr 1
  /\ ordinal_lookup [e1; e2] 1 = Some e1
  /\ fst (categorize_with_ai (reply_env text_1_abc json_1_abc) [e1; e2] st0) = inr []
  /\ ~ (exists out,
          fst (categorize_with_ai (reply_env text_1_abc json_1_abc) [e1; e2] st0) = inr out
          /\ in_category e1 action_required out).
Proof.
  split.
  { eexists _, _, _. split; [reflexivity|]. split; reflexivity. }
  do 4 (split; [reflexivity|]).
  intros (out & Hout & l & Hget & _).
  change (fst (categorize_with_ai (reply_env text_1_abc json_1_abc) [e1; e2] st0))
    with (@inr exn CategoryAssignment []) in Hout.
  injection Hout as <-. done.
Qed.

(** C1, amended: no reply makes the engine raise: whatever the model
    does, the engine returns an assignment.  When every entry of the reply
    converts to an integer, out-of-range ordinals included, each category
    of the reply holds exactly the records of its in-range entries, in the
    order listed.  When some entry of an array does not convert (a
    non-numeric id), the whole assignment is [{}]: that entry appears
    nowhere, and neither does any other; the same holds when the value of
    a category cannot be read as ordinals at all. *)
Theorem unusable_ids_never_raise {W : Type} (env : Env W)
    (emails : list EmailRecord) (st : state W) (items : list (str * json)) :
  (exists out, fst (categorize_with_ai env emails st) = inr out)
  /\ (emails <> [] ->
      NoDup (dict_keys items) ->
      model_replies env emails st (JDict items) ->
      ((forall c ids, (c, ids) ∈ items -> exists ns, ordinals_of ids = inr ns) ->
         exists out,
           fst (categorize_with_ai env emails st) = inr out
           /\ dict_keys out = dict_keys items
           /\ forall c ids ns,
                (c, ids) ∈ items -> ordinals_of ids = inr ns ->
                dict_get c out = Some (resolved emails ns))
      /\ (forall c l eid e,
            (c, JList l) ∈ items -> eid ∈ l -> py_int eid = inl e ->
            fst (categorize_with_ai env emails st) = inr [])
      /\ (forall c ids e,
            (c, ids) ∈ items -> ordinals_of ids = inl e ->
            fst (categorize_with_ai env emails st) = inr [])).
Proof.
  split.
  { destruct (categorize_returns env emails st) as (out & Hout & _). by exists out. }
  intros Hne Hnd Hrep.
  rewrite (categorize_object_reply env emails st items Hne Hnd Hrep).
  assert (forall c ids e,
            (c, ids) ∈ items -> ordinals_of ids = inl e ->
            @inr exn CategoryAssignment
              (match res_map (category_entry emails) items with
               | inr entries => entries
               | inl _ => []
               end) = inr []) as Hunreadable.
  { intros c ids e Hin Hord.
    destruct (res_map_raises (category_entry emails) items (c, ids) e Hin) as [e' ->];
      [|done].
    unfold category_entry. simpl. by rewrite Hord. }
  split; [|split].
  - intros Hall.
    destruct (res_map_total (category_entry emails) items) as [entries Hentries].
    { intros [c ids] Hin. destruct (Hall c ids Hin) as [ns Hns].
      exists (c, resolved emails ns). unfold category_entry. simpl. by rewrite Hns. }
    rewrite Hentries. exists entries. split; [done|].
    split; [by eapply category_entries_keys|].
    intros c ids ns Hin Hns. by eapply category_entries_get.
  - intros c l eid e Hin Heid Hint.
    destruct (res_map_raises py_int l eid e Heid Hint) as [e' He'].
    apply (Hunreadable c (JList l) e' Hin).
    unfold ordinals_of. simpl. exact He'.
  - exact Hunreadable.
Qed.

Lemma unusable_ids_never_raise_witness :
  (exists out,
     fst (categorize_with_ai (reply_env text_1_99 json_1_99) [e1; e2] st0) = inr out
     /\ dict_get action_required out = Some (resolved [e1; e2] [1; 99]))
  /\ fst (categorize_with_ai (reply_env text_1_abc json_1_abc) [e1; e2] st0) = inr [].
Proof.
  split.
  - destruct (unusable_ids_never_raise (reply_env text_1_99 json_1_99) [e1; e2] st0
                [(action_required, JList [JInt 1; JInt 99])]) as [_ Hreply].
    destruct Hreply as [Hok _].
    + done.
    + apply NoDup_singleton.
    + eexists _, _, _. split; [reflexivity|]. split; reflexivity.
    + destruct Hok as (out & Hout & _ & Hget).
      * intros c ids Hin. apply list_elem_of_singleton in Hin. injection Hin as -> ->.
        by exists [1; 99].
      * exists out. split; [done|].
        apply (Hget action_required (JList [JInt 1; JInt 99]) [1; 99]); [|done].
        by apply list_elem_of_singleton.
  - destruct (unusable_ids_never_raise (reply_env text_1_abc json_1_abc) [e1; e2] st0
                [(action_required, JList [JInt 1; JStr (lit "abc")])]) as [_ Hreply].
    destruct Hreply as (_ & Hbad & _).
    + done.
    + apply NoDup_singleton.
    + eexists _, _, _. split; [reflexivity|]. split; reflexivity.
    + apply (Hbad action_required [JInt 1; JStr (lit "abc")] (JStr (lit "abc")) ValueError).
      * by apply list_elem_of_singleton.
      * apply elem_of_cons. right. by apply list_elem_of_singleton.
      * reflexivity.
Defined.

(** ** One record, several categories *)

(** C2, as stated, fails: over two records the reply
    [{"A": [1], "B": [1]}] puts the record of ordinal 1 under both
    categories. *)
Lemma same_ordinal_lands_in_both_categories :
  model_replies (reply_env text_twice json_twice) [e1; e2] st0 json_twice
  /\ fst (categorize_with_ai (reply_env text_twice json_twice) [e1; e2] st0)
     = inr [(lit "A", [e1]); (lit "B", [e1])]
  /\ lit "A" <> lit "B"
  /\ in_category e1 (lit "A") [(lit "A", [e1]); (lit "B", [e1])]
  /\ in_category e1 (lit "B") [(lit "A", [e1]); (lit "B", [e1])].
Proof.
  split.
  { eexists _, _, _. split; [reflexivity|]. split; reflexivity. }
  split; [reflexivity|]. split; [done|].
  split; exists [e1]; (split; [reflexivity | by apply list_elem_of_singleton]).
Qed.

(** C2, amended: the engine does not de-duplicate.  Over a batch with
    distinct message ids, if no ordinal is listed under two different
    categories of the reply then no record appears under two categories of
    the assignment; if an ordinal of the batch is listed under two
    categories (and every entry converts), its record appears under
    both. *)
Theorem records_shared_only_when_ordinals_are {W : Type} (env : Env W)
    (emails : list EmailRecord) (st : state W) (items : list (str * json)) :
  emails <> [] ->
  NoDup (id <$> emails) ->
  NoDup (dict_keys items) ->
  model_replies env emails st (JDict items) ->
  ((forall c1 c2 ids1 ids2 ns1 ns2 n,
       c1 <> c2 -> (c1, ids1) ∈ items -> (c2, ids2) ∈ items ->
       ordinals_of ids1 = inr ns1 -> ordinals_of ids2 = inr ns2 ->
       n ∈ ns1 -> n ∈ ns2 -> False) ->
     exists out,
       fst (categorize_with_ai env emails st) = inr out
       /\ forall r c1 c2,
            c1 <> c2 -> in_category r c1 out -> in_category r c2 out -> False)
  /\ (forall c1 c2 ids1 ids2 ns1 ns2 n r,
        (forall c ids, (c, ids) ∈ items -> exists ns, ordinals_of ids = inr ns) ->
        (c1, ids1) ∈ items -> (c2, ids2) ∈ items ->
        ordinals_of ids1 = inr ns1 -> ordinals_of ids2 = inr ns2 ->
        n ∈ ns1 -> n ∈ ns2 -> ordinal_lookup emails n = Some r ->
        exists out,
          fst (categorize_with_ai env emails st) = inr out
          /\ in_category r c1 out /\ in_category r c2 out).
Proof.
  intros Hne Hids Hnd Hrep.
  assert (NoDup emails) as Hemails by (by eapply NoDup_fmap_1).
  rewrite (categorize_object_reply env emails st items Hne Hnd Hrep).
  split.
  - intros Hdisj.
    destruct (res_map (category_entry emails) items) as [e|entries] eqn:Hentries.
    { exists []. split; [done|]. intros r c1 c2 _ (l & Hget & _). done. }
    exists entries. split; [done|].
    intros r c1 c2 Hc (l1 & Hget1 & Hr1) (l2 & Hget2 & Hr2).
    destruct (category_entries_back emails items entries c1 l1 Hentries Hget1)
      as (ids1 & ns1 & Hin1 & Hns1 & ->).
    destruct (category_entries_back emails items entries c2 l2 Hentries Hget2)
      as (ids2 & ns2 & Hin2 & Hns2 & ->).
    apply resolved_elem in Hr1 as (n1 & Hn1 & Hl1).
    apply resolved_elem in Hr2 as (n2 & Hn2 & Hl2).
    assert (n1 = n2) as -> by (by eapply ordinal_lookup_inj).
    by eapply (Hdisj c1 c2 ids1 ids2 ns1 ns2 n2).
  - intros c1 c2 ids1 ids2 ns1 ns2 n r Hall Hin1 Hin2 Hns1 Hns2 Hn1 Hn2 Hr.
    destruct (res_map_total (category_entry emails) items) as [entries Hentries].
    { intros [c ids] Hin. destruct (Hall c ids Hin) as [ns Hns].
      exists (c, resolved emails ns). unfold category_entry. simpl. by rewrite Hns. }
    rewrite Hentries. exists entries. split; [done|].
    split.
    + exists (resolved emails ns1).
      split; [by eapply category_entries_get | apply resolved_elem; by exists n].
    + exists (resolved emails ns2).
      split; [by eapply category_entries_get | apply resolved_elem; by exists n].
Qed.

Lemma records_shared_only_when_ordinals_are_witness :
  (exists out,
     fst (categorize_with_ai (reply_env text_apart json_apart) [e1; e2] st0) = inr out
     /\ forall r c1 c2,
          c1 <> c2 -> in_category r c1 out -> in_category r c2 out -> False)
  /\ (exists out,
        fst (categorize_with_ai (reply_env text_twice json_twice) [e1; e2] st0) = inr out
        /\ in_category e1 (lit "A") out /\ in_category e1 (lit "B") out).
Proof.
  split.
  - destruct (records_shared_only_when_ordinals_are
                (reply_env text_apart json_apart) [e1; e2] st0
                [(lit "A", JList [JInt 1]); (lit "B", JList [JInt 2])]) as [Hdisj _].
    + done.
    + apply (bool_decide_unpack _). vm_compute. exact I.
    + apply (bool_decide_unpack _). vm_compute. exact I.
    + eexists _, _, _. split; [reflexivity|]. split; reflexivity.
    + apply Hdisj.
      intros c1 c2 ids1 ids2 ns1 ns2 n Hc Hin1 Hin2 Hns1 Hns2 Hn1 Hn2.
      apply elem_of_cons in Hin1 as [Heq1|Hin1];
        [|apply list_elem_of_singleton in Hin1 as Heq1];
        injection Heq1 as -> ->;
        (apply elem_of_cons in Hin2 as [Heq2|Hin2];
           [|apply list_elem_of_singleton in Hin2 as Heq2]);
        injection Heq2 as -> ->; try done;
        injection Hns1 as <-; injection Hns2 as <-;
        apply list_elem_of_singleton in Hn1; apply list_elem_of_singleton in Hn2;
        congruence.
  - destruct (records_shared_only_when_ordinals_are
                (reply_env text_twice json_twice) [e1; e2] st0
                [(lit "A", JList [JInt 1]); (lit "B", JList [JInt 1])]) as [_ Hboth].
    + done.
    + apply (bool_decide_unpack _). vm_compute. exact I.
    + apply (bool_decide_unpack _). vm_compute. exact I.
    + eexists _, _, _. split; [reflexivity|]. split; reflexivity.
    + apply (Hboth (lit "A") (lit "B") (JList [JInt 1]) (JList [JInt 1]) [1] [1] 1 e1).
      * intros c ids Hin.
        apply elem_of_cons in Hin as [Heq|Hin];
          [|apply list_elem_of_singleton in Hin as Heq];
          injection Heq as -> ->; by exists [1].
      * apply elem_of_cons. by left.
      * apply elem_of_cons. right. by apply list_elem_of_singleton.
      * reflexivity.
      * reflexivity.
      * by apply list_elem_of_singleton.
      * by apply list_elem_of_singleton.
      * reflexivity.
Defined.

(** ** The fetch loop *)

Section Fetch.

Context {W : Type} (env : Env W).

(** A message that was read has an id, so its record can be built. *)
Lemma read_message_has_id (msg : MsgRef) (st st' : state W) (f : MessageFields) :
  read_message env msg st = (inr f, st') -> exists i, ref_id msg = Some i.
Proof.
  unfold read_message, bind, lift, msg_id_of.
  destruct (ref_id msg) as [i|]; [by exists i | done].
Qed.

Lemma make_record_from (msg : MsgRef) (f : MessageFields) (e : EmailRecord) :
  make_record msg f = inr e -> from e = f_sender_simple f /\ ref_id msg = Some (id e).
Proof.
  unfold make_record, msg_id_of. destruct (ref_id msg) as [i|]; simpl; [|done].
  by intros [= <-].
Qed.

Lemma fetch_step_ok (acc : list EmailRecord * gmap str Z) (msg : MsgRef)
    (st st' : state W) (e : EmailRecord) :
  fetch_message env msg st = (inr e, st') ->
  fetch_step env acc msg st
  = (inr (fst acc ++ [e], <[from e := counter_get (snd acc) (from e) + 1]> (snd acc)), st').
Proof.
  unfold fetch_message, fetch_step, try_except, bind, lift, ret.
  destruct (read_message env msg st) as [[x|f] st1]; [done|].
  destruct (make_record msg f) as [x|e'] eqn:Hrec; [done|].
  intros [= -> ->]. by destruct (make_record_from msg f e Hrec) as [-> _].
Qed.

Lemma fetch_step_skip (acc : list EmailRecord * gmap str Z) (msg : MsgRef)
    (st st' : state W) (x : exn) :
  fetch_message env msg st = (inl x, st') ->
  fetch_step env acc msg st = (inr acc, st').
Proof.
  unfold fetch_message, fetch_step, try_except, bind, lift, ret.
  destruct (read_message env msg st) as [[x'|f] st1] eqn:Hread.
  - by intros [= _ ->].
  - destruct (read_message_has_id msg st st1 f Hread) as [i Hi].
    unfold make_record, msg_id_of. rewrite Hi. done.
Qed.

(** One iteration never raises: it adds one record or none. *)
Lemma fetch_step_cases (acc : list EmailRecord * gmap str Z) (msg : MsgRef) (st : state W) :
  (exists e st', fetch_message env msg st = (inr e, st')
     /\ fetch_step env acc msg st
        = (inr (fst acc ++ [e], <[from e := counter_get (snd acc) (from e) + 1]> (snd acc)), st'))
  \/ (exists x st', fetch_message env msg st = (inl x, st')
        /\ fetch_step env acc msg st = (inr acc, st')).
Proof.
  destruct (fetch_message env msg st) as [[x|e] st'] eqn:Hm.
  - right. exists x, st'. split; [done | by eapply fetch_step_skip].
  - left. exists e, st'. split; [done | by eapply fetch_step_ok].
Qed.

Lemma fetch_loop_cons (msg : MsgRef) (msgs : list MsgRef)
    (acc acc1 : list EmailRecord * gmap str Z) (st st1 : state W) :
  fetch_step env acc msg st = (inr acc1, st1) ->
  fetch_loop env (msg :: msgs) acc st = fetch_loop env msgs acc1 st1.
Proof. intros Hs. simpl. unfold bind. by rewrite Hs. Qed.

Lemma fetch_loop_app (pre post : list MsgRef) :
  forall (acc acc1 : list EmailRecord * gmap str Z) (st st1 : state W),
    fetch_loop env pre acc st = (inr acc1, st1) ->
    fetch_loop env (pre ++ post) acc st = fetch_loop env post acc1 st1.
Proof.
  induction pre as [|msg pre IH]; intros acc acc1 st st1 Hpre; simpl in *.
  - unfold ret in Hpre. by injection Hpre as -> ->.
  - unfold bind in *.
    destruct (fetch_step env acc msg st) as [[x|acc0] st0]; [done|].
    by apply IH.
Qed.

(** The message id of a fetched record is the id of the listed message. *)
Lemma fetch_message_id (msg : MsgRef) (st st' : state W) (e : EmailRecord) :
  fetch_message env msg st = (inr e, st') -> ref_id msg = Some (id e).
Proof.
  unfold fetch_message, bind, lift.
  destruct (read_message env msg st) as [[x|f] st1]; [done|].
  destruct (make_record msg f) as [x|e'] eqn:Hrec; [done|].
  intros [= -> _]. by destruct (make_record_from msg f e Hrec).
Qed.

(** The loop never raises, every new record stems from a listed message,
    and the counter keeps counting the senders of the records. *)
Lemma fetch_loop_inv (msgs : list MsgRef) :
  forall (acc : list EmailRecord * gmap str Z) (st : state W),
    (forall k, counter_get (snd acc) k = sender_occurrences k (fst acc)) ->
    exists acc' st',
      fetch_loop env msgs acc st = (inr acc', st')
      /\ (forall k, counter_get (snd acc') k = sender_occurrences k (fst acc'))
      /\ exists new, fst acc' = fst acc ++ new
           /\ Forall (fun r => Some (id r) ∈ ref_id <$> msgs) new.
Proof.
  induction msgs as [|msg msgs IH]; intros acc st Hinv.
  - exists acc, st. split; [done|]. split; [done|].
    exists []. split; [by rewrite app_nil_r | constructor].
  - destruct (fetch_step_cases acc msg st)
      as [(e & st1 & Hm & Hs)|(x & st1 & Hm & Hs)];
      rewrite (fetch_loop_cons _ _ _ _ _ _ Hs).
    + destruct (IH (fst acc ++ [e],
                    <[from e := counter_get (snd acc) (from e) + 1]> (snd acc)) st1)
        as (acc' & st' & Hloop & Hinv' & new & Hnew & Hids).
      { intros k. simpl. unfold counter_get, sender_occurrences in *.
        rewrite filter_app, length_app, Nat2Z.inj_add.
        destruct (decide (from e = k)) as [<-|Hne].
        - rewrite lookup_insert_eq. simpl.
          rewrite filter_cons_True by done. simpl. rewrite <- Hinv. done.
        - rewrite lookup_insert_ne by done.
          rewrite filter_cons_False by done. simpl. rewrite <- Hinv. lia. }
      exists acc', st'. split; [done|]. split; [done|].
      exists (e :: new). simpl in Hnew. rewrite Hnew, <- app_assoc. split; [done|].
      constructor.
      * rewrite fmap_cons, <- (fetch_message_id _ _ _ _ Hm). apply elem_of_cons. by left.
      * eapply Forall_impl; [exact Hids|].
        intros r Hr. rewrite fmap_cons. apply elem_of_cons. by right.
    + destruct (IH acc st1 Hinv) as (acc' & st' & Hloop & Hinv' & new & Hnew & Hids).
      exists acc', st'. split; [done|]. split; [done|].
      exists new. split; [done|].
      eapply Forall_impl; [exact Hids|].
      intros r Hr. rewrite fmap_cons. apply elem_of_cons. by right.
Qed.

Lemma attach_counts_occurrences (recs : list EmailRecord) (counter : gmap str Z) (k : str) :
  sender_occurrences k (attach_counts recs counter) = sender_occurrences k recs.
Proof.
  unfold sender_occurrences, attach_counts. f_equal.
  induction recs as [|r recs IH]; [done|]. csimpl.
  destruct (decide (from r = k)) as [Hk|Hk].
  - rewrite !filter_cons_True by done. simpl. by rewrite IH.
  - rewrite !filter_cons_False by done. done.
Qed.

Lemma attach_counts_ids (recs : list EmailRecord) (counter : gmap str Z) :
  id <$> attach_counts recs counter = id <$> recs.
Proof.
  unfold attach_counts. induction recs as [|r recs IH]; [done|].
  csimpl. f_equal. exact IH.
Qed.

End Fetch.

(** ** Sender counts *)

(** C4: the fetch-and-count pass always returns, and every record it
    returns carries as [sender_count] the number of records of the batch
    whose stripped sender equals its own.  In the scenario, two messages
    from [Alice <a@x.com>] both get sender [Alice] and count 2. *)
Theorem sender_count_is_batch_frequency {W : Type} (env : Env W)
    (msgs : list MsgRef) (st : state W) :
  (exists recs,
     fst (fetch_and_count env msgs st) = inr recs
     /\ Forall (fun r => sender_count r = Some (sender_occurrences (from r) recs)) recs)
  /\ fst (fetch_and_count (mail_env alice_mail) [ref "m1"; ref "m2"] st0)
     = inr [ {| id := lit "m1"; from := lit "Alice"; subject := lit "Hi";
                snippet := lit "See you"; sender_count := Some 2 |};
             {| id := lit "m2"; from := lit "Alice"; subject := lit "Hi";
                snippet := lit "See you"; sender_count := Some 2 |} ].
Proof.
  split; [|vm_compute; reflexivity].
  destruct (fetch_loop_inv env msgs ([], ∅) st) as (acc & st' & Hloop & Hinv & _).
  { intros k. simpl. unfold counter_get. by rewrite lookup_empty. }
  unfold fetch_and_count, bind, ret. rewrite Hloop. simpl.
  exists (attach_counts (fst acc) (snd acc)). split; [done|].
  apply Forall_forall. intros r Hr.
  rewrite attach_counts_occurrences.
  unfold attach_counts in Hr. apply list_elem_of_fmap in Hr as (r0 & -> & _).
  simpl. by rewrite Hinv.
Qed.

(** ** Messages that cannot be fetched *)

(** C8: a message whose fetch raises is skipped: the loop goes on with the
    messages after it from the accumulators it had before it, so the
    message adds no record and the others are still fetched; when no other
    listed message has its id, that id is on no returned record.  In the
    scenario, reading [m3] fails among five messages: four records come
    back, for [m1], [m2], [m4] and [m5]. *)
Theorem failed_fetch_is_skipped {W : Type} (env : Env W)
    (pre post : list MsgRef) (msg : MsgRef)
    (acc acc1 : list EmailRecord * gmap str Z) (st st1 st2 : state W) (x : exn) :
  fetch_loop env pre acc st = (inr acc1, st1) ->
  fetch_message env msg st1 = (inl x, st2) ->
  fetch_loop env (pre ++ msg :: post) acc st = fetch_loop env post acc1 st2
  /\ (acc = ([], ∅) -> ref_id msg ∉ ref_id <$> (pre ++ post) ->
      exists recs,
        fst (fetch_and_count env (pre ++ msg :: post) st) = inr recs
        /\ Forall (fun r => Some (id r) <> ref_id msg) recs)
  /\ (exists recs,
        fst (fetch_and_count (mail_env flaky_mail)
               [ref "m1"; ref "m2"; ref "m3"; ref "m4"; ref "m5"] st0) = inr recs
        /\ length recs = 4%nat
        /\ id <$> recs = [lit "m1"; lit "m2"; lit "m4"; lit "m5"]).
Proof.
  intros Hpre Hfail.
  assert (fetch_loop env (pre ++ msg :: post) acc st = fetch_loop env post acc1 st2) as Hskip.
  { rewrite (fetch_loop_app env pre (msg :: post) _ _ _ _ Hpre).
    apply fetch_loop_cons. by eapply fetch_step_skip. }
  split; [exact Hskip|]. split.
  - intros -> Hfresh.
    destruct (fetch_loop_inv env pre ([], ∅) st) as (a1 & s1 & Hl1 & Hinv1 & new1 & Hn1 & Hids1).
    { intros k. simpl. unfold counter_get. by rewrite lookup_empty. }
    rewrite Hpre in Hl1. injection Hl1 as <- <-.
    destruct (fetch_loop_inv env post acc1 st2 Hinv1)
      as (a2 & s2 & Hl2 & _ & new2 & Hn2 & Hids2).
    unfold fetch_and_count, bind, ret. rewrite Hskip, Hl2. simpl.
    exists (attach_counts (fst a2) (snd a2)). split; [done|].
    apply Forall_forall. intros r Hr Heq.
    apply (list_elem_of_fmap_2 id) in Hr. rewrite attach_counts_ids in Hr.
    apply list_elem_of_fmap in Hr as (r0 & Hid & Hr0).
    rewrite Hid in Heq. apply Hfresh. rewrite <- Heq, fmap_app, elem_of_app.
    rewrite Hn2, Hn1 in Hr0. simpl in Hr0.
    apply elem_of_app in Hr0 as [Hr0|Hr0].
    + left. rewrite Forall_forall in Hids1. by apply Hids1.
    + right. rewrite Forall_forall in Hids2. by apply Hids2.
  - eexists. split; [vm_compute; reflexivity|]. split; reflexivity.
Qed.

Lemma failed_fetch_is_skipped_witness :
  exists recs,
    fst (fetch_and_count (mail_env flaky_mail)
           ([ref "m1"; ref "m2"] ++ ref "m3" :: [ref "m4"; ref "m5"]) st0) = inr recs
    /\ Forall (fun r => Some (id r) <> ref_id (ref "m3")) recs.
Proof.
  pose (run := fetch_loop (mail_env flaky_mail) [ref "m1"; ref "m2"] ([], ∅) st0).
  pose (acc1 := match fst run with inr a => a | inl _ => ([], ∅) end).
  pose (st2 := snd (fetch_message (mail_env flaky_mail) (ref "m3") (snd run))).
  destruct (failed_fetch_is_skipped (mail_env flaky_mail)
              [ref "m1"; ref "m2"] [ref "m4"; ref "m5"] (ref "m3") ([], ∅)
              acc1 st0 (snd run) st2 (OtherError (lit "HttpError")))
    as (_ & Hids & _).
  - vm_compute. reflexivity.
  - vm_compute. reflexivity.
  - apply Hids; [reflexivity|].
    apply (bool_decide_unpack _). vm_compute. exact I.
Defined.

(** ** Missing headers *)

Lemma header_value_well_formed (wanted fallback : str) (headers : list Header) :
  Forall well_formed_header headers ->
  exists v, header_value wanted fallback headers = inr v.
Proof.
  induction 1 as [|h headers [[n Hn] [v Hv]] _ IH]; simpl.
  - by exists fallback.
  - rewrite Hn, Hv. destruct (decide (n = wanted)); [by exists v | exact IH].
Qed.

Lemma header_value_lacks (wanted fallback : str) (headers : list Header) :
  Forall well_formed_header headers ->
  lacks_header wanted headers ->
  header_value wanted fallback headers = inr fallback.
Proof.
  unfold lacks_header.
  induction 1 as [|h headers [[n Hn] _] _ IH]; intros Hlacks; simpl; [done|].
  pose proof (Forall_inv Hlacks) as Hh. pose proof (Forall_inv_tail Hlacks) as Ht.
  rewrite Hn in *. rewrite decide_False by congruence. by apply IH.
Qed.

(** C10: when both reads of a message succeed and the headers returned are
    well formed, the message is not a fetch failure, whichever headers are
    there: its record is emitted, with sender [Unknown] when no header is
    called [From] and subject [(No Subject)] when none is called
    [Subject]. *)
Theorem missing_header_gets_placeholder {W : Type} (env : Env W)
    (msg : MsgRef) (i : str) (data snippet_res : Message) (st : state W) (w1 w2 : W) :
  ref_id msg = Some i ->
  messages_get env i (Metadata [lit "From"; lit "Subject"]) (world st) = (inr data, w1) ->
  messages_get env i Minimal w1 = (inr snippet_res, w2) ->
  Forall well_formed_header (headers_of data) ->
  exists e st',
    fetch_message env msg st = (inr e, st')
    /\ id e = i
    /\ fst (fetch_and_count env [msg] st)
       = inr [ {| id := id e; from := from e; subject := subject e;
                  snippet := snippet e; sender_count := Some 1 |} ]
    /\ (lacks_header (lit "From") (headers_of data) -> from e = lit "Unknown")
    /\ (lacks_header (lit "Subject") (headers_of data) -> subject e = lit "(No Subject)").
Proof.
  intros Hid Hmeta Hmin Hwf.
  destruct (header_value_well_formed (lit "Subject") (lit "(No Subject)") _ Hwf) as [sub Hsub].
  destruct (header_value_well_formed (lit "From") (lit "Unknown") _ Hwf) as [snd Hsnd].
  assert (exists st',
    fetch_message env msg st
    = (inr {| id := i; from := simple_sender snd; subject := sub;
              snippet := default [] (m_snippet snippet_res); sender_count := None |}, st'))
    as [st' Hfetch].
  { unfold fetch_message, read_message, make_record, bind, lift, perform, ret, msg_id_of.
    rewrite Hid. simpl. rewrite Hmeta. simpl. rewrite Hmin. simpl.
    rewrite Hsub. simpl. rewrite Hsnd. simpl. by eexists. }
  eexists _, st'. split; [exact Hfetch|]. split; [done|]. split; [|split].
  - unfold fetch_and_count, bind, ret.
    rewrite (fetch_loop_cons env msg [] _ _ _ _ (fetch_step_ok env _ _ _ _ _ Hfetch)).
    simpl. unfold ret, attach_counts, counter_get. csimpl.
    rewrite lookup_insert_eq, lookup_empty. done.
  - intros Hlacks. simpl.
    rewrite (header_value_lacks _ _ _ Hwf Hlacks) in Hsnd. by injection Hsnd as <-.
  - intros Hlacks. simpl.
    rewrite (header_value_lacks _ _ _ Hwf Hlacks) in Hsub. by injection Hsub as <-.
Qed.

Lemma missing_header_gets_placeholder_witness :
  exists e st',
    fetch_message (mail_env bare_mail) (ref "m1") st0 = (inr e, st')
    /\ from e = lit "Unknown" /\ subject e = lit "(No Subject)"
    /\ fst (fetch_and_count (mail_env bare_mail) [ref "m1"] st0)
       = inr [ {| id := id e; from := from e; subject := subject e;
                  snippet := snippet e; sender_count := Some 1 |} ].
Proof.
  destruct (missing_header_gets_placeholder (mail_env bare_mail) (ref "m1") (lit "m1")
              (metadata_of []) (minimal_of "See you") st0 tt tt)
    as (e & st' & Hfetch & _ & Hloop & Hfrom & Hsubject).
  - reflexivity.
  - reflexivity.
  - reflexivity.
  - constructor.
  - exists e, st'. split; [exact Hfetch|].
    split; [apply Hfrom; constructor|].
    split; [apply Hsubject; constructor | exact Hloop].
Defined.

(** ** What [/result] shows *)

Lemma categorize_keeps_session {W : Type} (env : Env W) (emails : list EmailRecord)
    (st : state W) :
  session (snd (categorize_with_ai env emails st)) = session st.
Proof.
  destruct emails as [|e0 emails]; [done|].
  unfold categorize_with_ai, try_except, categorize_try, bind, perform, lift, log_error, ret.
  destruct (chat_create env _ (world st)) as [[e|completion] w]; simpl; [done|].
  destruct (first_content completion) as [e|c]; simpl; [done|].
  destruct (loads_content env c) as [e|v]; simpl; [done|].
  destruct (rebuild (make_email_map (e0 :: emails)) v); done.
Qed.

Lemma sort_and_store_result {W : Type} (env : Env W) (emails : list EmailRecord)
    (st : state W) (out : CategoryAssignment) :
  fst (categorize_with_ai env emails st) = inr out ->
  last_result (session (snd (sort_and_store env emails st))) = out.
Proof.
  intros Hout. unfold sort_and_store, bind, get_session, put_session, ret.
  destruct (categorize_with_ai env emails st) as [[e|out'] st']; simpl in *; [done|].
  by injection Hout as ->.
Qed.

(** C9: [/result] reports status [success] for every session, the initial
    one included; and after a run whose categorization failed it answers
    exactly what it answers after a run in which there was nothing to sort
    or the model sorted nothing: status [success] with no category. *)
Theorem result_cannot_tell_failure_from_empty {W : Type} (env1 env2 : Env W)
    (emails1 emails2 : list EmailRecord) (st1 st2 : state W) :
  (forall s, status (get_result s) = lit "success")
  /\ get_result USER_SESSION_init = {| status := lit "success"; categories := [] |}
  /\ (categorization_failure env1 emails1 st1 ->
      emails2 = [] \/ model_replies env2 emails2 st2 (JDict []) ->
      get_result (session (snd (sort_and_store env1 emails1 st1)))
        = {| status := lit "success"; categories := [] |}
      /\ get_result (session (snd (sort_and_store env2 emails2 st2)))
         = get_result (session (snd (sort_and_store env1 emails1 st1)))).
Proof.
  split; [done|]. split; [done|].
  intros Hfail Hempty. unfold get_result.
  rewrite (sort_and_store_result env1 emails1 st1 [])
    by (by apply failure_is_caught).
  split; [done|]. f_equal.
  apply sort_and_store_result.
  destruct Hempty as [->|Hrep]; [done|].
  destruct (decide (emails2 = [])) as [->|Hne]; [done|].
  by rewrite (categorize_reply env2 emails2 st2 (JDict []) Hne Hrep).
Qed.

Lemma result_cannot_tell_failure_from_empty_witness :
  get_result (session (snd (sort_and_store down_env [e1; e2] st0)))
    = {| status := lit "success"; categories := [] |}
  /\ get_result (session (snd (sort_and_store silent_env [e1; e2] st0)))
     = get_result (session (snd (sort_and_store down_env [e1; e2] st0))).
Proof.
  destruct (result_cannot_tell_failure_from_empty down_env silent_env
              [e1; e2] [e1; e2] st0 st0) as (_ & _ & Hsame).
  apply Hsame.
  - eapply call_raises. reflexivity.
  - right. eexists _, _, _. split; [reflexivity|]. split; reflexivity.
Defined.

(* ===================================================================== *)
(** * Further properties of the code *)
(* ===================================================================== *)

(** ** Ordinals, the prompt and the ids that come back *)

Lemma enumerate_fold_append (l : list EmailRecord) :
  forall (start : Z) (acc : dict Z EmailRecord),
    Forall (fun k => k < start) (dict_keys acc) ->
    fold_left (fun d kv => dict_set (fst kv) (snd kv) d) (enumerate l start) acc
    = acc ++ enumerate l start.
Proof.
  induction l as [|a l IH]; intros start acc Hacc; simpl.
  - by rewrite app_nil_r.
  - rewrite dict_set_fresh.
    + rewrite IH; [by rewrite <- app_assoc|].
      unfold dict_keys in *. rewrite fmap_app. apply Forall_app. split.
      * eapply Forall_impl; [exact Hacc|]. simpl. intros; lia.
      * apply Forall_singleton. simpl. lia.
    + intros Hin. rewrite Forall_forall in Hacc. specialize (Hacc _ Hin). lia.
Qed.

Lemma enumerate_keys {A : Type} (l : list A) (start : Z) :
  (enumerate l start).*1 = seqZ start (Z.of_nat (length l)).
Proof.
  revert start. induction l as [|a l IH]; intros start; [done|].
  simpl length. rewrite Nat2Z.inj_succ, seqZ_cons by lia. csimpl. f_equal.
  rewrite IH. f_equal; lia.
Qed.

(** X1: the ordinal map is the batch numbered from 1 in its own order: its
    items are [enumerate(emails, 1)], its keys are 1..N, and looking an
    ordinal up gives the record at that position or nothing. *)
Theorem email_map_numbers_batch_from_one (emails : list EmailRecord) :
  make_email_map emails = enumerate emails 1
  /\ dict_keys (make_email_map emails) = seqZ 1 (Z.of_nat (length emails))
  /\ forall n, dict_get n (make_email_map emails)
               = if in_batch emails n then emails !! Z.to_nat (n - 1) else None.
Proof.
  assert (make_email_map emails = enumerate emails 1) as Henum.
  { unfold make_email_map, dict_of_pairs. by rewrite enumerate_fold_append. }
  split; [exact Henum|]. split.
  - rewrite Henum. apply enumerate_keys.
  - intros n. apply make_email_map_get.
Qed.

Lemma count_char_app (c : char) (s t : str) :
  count_char c (s ++ t) = (count_char c s + count_char c t)%nat.
Proof. unfold count_char. by rewrite filter_app, length_app. Qed.

Lemma count_char_absent (c : char) (s : str) :
  c ∉ s -> count_char c s = 0%nat.
Proof.
  unfold count_char. induction s as [|x s IH]; [done|].
  rewrite not_elem_of_cons. intros [Hne Hs].
  rewrite filter_cons_False by congruence. by apply IH.
Qed.

Lemma uint_digits_are_digits (d : Decimal.uint) :
  Forall (fun c => ascii_digit c = true) (uint_digits d).
Proof. induction d; simpl; constructor; done. Qed.

Lemma str_of_int_chars (n : Z) :
  Forall (fun c => c = ch_minus \/ ascii_digit c = true) (str_of_int n).
Proof.
  unfold str_of_int. destruct (Z.to_int n) as [d|d].
  - eapply Forall_impl; [apply uint_digits_are_digits|]. by right.
  - constructor; [by left|].
    eapply Forall_impl; [apply uint_digits_are_digits|]. by right.
Qed.

Lemma prompt_line_one_line (i : Z) (e : EmailRecord) :
  ch_newline ∉ from e -> ch_newline ∉ subject e ->
  ch_newline ∉ prompt_line i e.
Proof.
  intros Hfrom Hsub. unfold prompt_line.
  assert (forall s, ch_newline ∉ lit s <-> bool_decide (ch_newline ∉ lit s)) as Hlit
    by (intros s; symmetry; apply bool_decide_spec).
  rewrite !not_elem_of_app.
  repeat split; try done; try (apply Hlit; vm_compute; exact I).
  - intros Hin. pose proof (str_of_int_chars i) as Hchars.
    rewrite Forall_forall in Hchars. destruct (Hchars _ Hin) as [Heq|Hd]; done.
  - unfold replace_char. intros Hin.
    apply list_elem_of_In, in_map_iff in Hin as (c & Hc & _).
    destruct (N.eqb_spec c ch_newline); [done | congruence].
Qed.

Lemma join_newline_count (parts : list str) :
  parts <> [] ->
  Forall (fun p => ch_newline ∉ p) parts ->
  count_char ch_newline (join [ch_newline] parts) = (length parts - 1)%nat.
Proof.
  induction parts as [|p parts IH]; [done|]. intros _ Hall.
  pose proof (Forall_inv Hall) as Hp. pose proof (Forall_inv_tail Hall) as Hrest.
  destruct parts as [|q parts].
  - simpl. by apply count_char_absent.
  - change (join [ch_newline] (p :: q :: parts))
      with (p ++ [ch_newline] ++ join [ch_newline] (q :: parts)).
    rewrite !count_char_app, (count_char_absent _ p Hp), IH by done.
    simpl. lia.
Qed.

(** X2: when no sender and no subject of a non-empty batch holds a newline,
    the prompt is one line per record: it has exactly N-1 newlines, whatever
    the snippets hold. *)
Theorem prompt_is_one_line_per_record (emails : list EmailRecord) :
  emails <> [] ->
  Forall (fun e => (ch_newline ∉ from e) /\ (ch_newline ∉ subject e)) emails ->
  count_char ch_newline (build_prompt (make_email_map emails))
  = (length emails - 1)%nat.
Proof.
  intros Hne Hall.
  assert (make_email_map emails = enumerate emails 1) as ->.
  { unfold make_email_map, dict_of_pairs. by rewrite enumerate_fold_append. }
  unfold build_prompt.
  assert (forall start,
    length (List.map (fun ie => prompt_line (fst ie) (snd ie)) (enumerate emails start))
      = length emails
    /\ Forall (fun p => ch_newline ∉ p)
         (List.map (fun ie => prompt_line (fst ie) (snd ie)) (enumerate emails start)))
    as Hlines.
  { clear Hne. induction Hall as [|e emails [Hf Hs] _ IH]; intros start; simpl.
    - split; [done | constructor].
    - destruct (IH (start + 1)) as [Hlen Hfa]. split; [by rewrite Hlen|].
      constructor; [by apply prompt_line_one_line | done]. }
  destruct (Hlines 1) as [Hlen Hfa].
  rewrite join_newline_count, Hlen; [done | | done].
  intros Hnil. rewrite Hnil in Hlen. destruct emails; done.
Qed.

Lemma prompt_is_one_line_per_record_witness :
  count_char ch_newline (build_prompt (make_email_map [e1; e2])) = (length [e1; e2] - 1)%nat.
Proof.
  apply prompt_is_one_line_per_record; [done|].
  repeat constructor; apply (bool_decide_unpack _); vm_compute; exact I.
Defined.

Lemma lstrip_with_none (f : char -> bool) (s : str) :
  Forall (fun c => f c = false) s -> lstrip_with f s = s.
Proof. destruct 1 as [|c s Hc _]; simpl; [done | by rewrite Hc]. Qed.

Lemma strip_with_none (f : char -> bool) (s : str) :
  Forall (fun c => f c = false) s -> strip_with f s = s.
Proof.
  intros Hs. unfold strip_with.
  rewrite (lstrip_with_none f s Hs), lstrip_with_none, rev_involutive; [done|].
  by apply Forall_rev.
Qed.

Lemma ascii_digit_cases (c : char) :
  ascii_digit c = true ->
  c = 48%N \/ c = 49%N \/ c = 50%N \/ c = 51%N \/ c = 52%N
  \/ c = 53%N \/ c = 54%N \/ c = 55%N \/ c = 56%N \/ c = 57%N.
Proof.
  unfold ascii_digit, in_range. intros Hc.
  apply andb_prop in Hc as [Hlo Hhi].
  apply N.leb_le in Hlo. apply N.leb_le in Hhi. lia.
Qed.

Lemma ascii_digit_plain (c : char) :
  ascii_digit c = true ->
  int_space c = false /\ (c =? ch_plus)%N = false /\ (c =? ch_minus)%N = false
  /\ (c =? ch_underscore)%N = false /\ decimal_value c = Some (Z.of_N c - 48).
Proof.
  intros Hc.
  destruct (ascii_digit_cases c Hc) as [->|[->|[->|[->|[->|[->|[->|[->|[->| ->]]]]]]]]];
    vm_compute; repeat split.
Qed.

Lemma parse_digits_step (c : char) (k : Z) (acc : Z) (count : nat) (prev : bool) (r : str) :
  (c =? ch_underscore)%N = false -> decimal_value c = Some k ->
  parse_digits acc count prev (c :: r) = parse_digits (10 * acc + k) (S count) true r.
Proof. intros Hu Hd. simpl. by rewrite Hu, Hd. Qed.

Lemma parse_digits_acc (d : Decimal.uint) :
  forall (p : positive) (count : nat) (prev : bool),
    d <> Decimal.Nil \/ prev = true ->
    parse_digits (Z.pos p) count prev (uint_digits d)
    = Some (Z.pos (Pos.of_uint_acc d p), (count + length (uint_digits d))%nat).
Proof.
  induction d; intros p count prev Hne;
    try (cbn [uint_digits Pos.of_uint_acc length];
         erewrite parse_digits_step by (vm_compute; reflexivity);
         match goal with
         | |- parse_digits ?a _ _ _ = Some (Z.pos (Pos.of_uint_acc _ ?q), _) =>
             replace a with (Z.pos q) by lia
         end;
         rewrite IHd by (by right); do 2 f_equal; lia).
  simpl. destruct Hne as [?| ->]; [done|]. do 2 f_equal. lia.
Qed.

Lemma parse_digits_zero (d : Decimal.uint) :
  forall (count : nat) (prev : bool),
    d <> Decimal.Nil \/ prev = true ->
    parse_digits 0 count prev (uint_digits d)
    = Some (Z.of_N (Pos.of_uint d), (count + length (uint_digits d))%nat).
Proof.
  induction d; intros count prev Hne;
    try (cbn [uint_digits Pos.of_uint length];
         erewrite parse_digits_step by (vm_compute; reflexivity);
         match goal with
         | |- parse_digits ?a _ _ _ = Some (Z.of_N (N.pos (Pos.of_uint_acc _ ?q)), _) =>
             replace a with (Z.pos q) by lia
         end;
         rewrite parse_digits_acc by (by right); do 2 f_equal; lia).
  - simpl. destruct Hne as [?| ->]; [done|]. do 2 f_equal. lia.
  - cbn [uint_digits Pos.of_uint length].
    erewrite parse_digits_step by (vm_compute; reflexivity).
    replace (10 * 0 + 0) with 0 by lia.
    rewrite IHd by (by right). do 2 f_equal. lia.
Qed.

Lemma parse_unsigned_digits (d : Decimal.uint) :
  d <> Decimal.Nil ->
  (length (uint_digits d) <= int_max_str_digits)%nat ->
  parse_unsigned (uint_digits d) = inr (Z.of_N (Pos.of_uint d)).
Proof.
  intros Hne Hlen. unfold parse_unsigned.
  rewrite parse_digits_zero by (by left). simpl.
  destruct (Nat.ltb_spec int_max_str_digits (length (uint_digits d))); [lia | done].
Qed.

Lemma int_of_str_digits (d : Decimal.uint) :
  d <> Decimal.Nil ->
  (length (uint_digits d) <= int_max_str_digits)%nat ->
  int_of_str (uint_digits d) = inr (Z.of_N (Pos.of_uint d))
  /\ int_of_str (ch_minus :: uint_digits d) = inr (- Z.of_N (Pos.of_uint d)).
Proof.
  intros Hne Hlen.
  pose proof (uint_digits_are_digits d) as Hdig.
  assert (Forall (fun c => int_space c = false) (uint_digits d)) as Hnospace.
  { eapply Forall_impl; [exact Hdig|]. intros c Hc. by apply ascii_digit_plain. }
  unfold int_of_str. split.
  - rewrite strip_with_none by done.
    assert (exists c r, uint_digits d = c :: r) as (c & r & Hd)
      by (destruct d; simpl; eauto; done).
    assert (ascii_digit c = true) as Hc
      by (rewrite Hd in Hdig; exact (Forall_inv Hdig)).
    rewrite Hd.
    destruct (ascii_digit_plain c Hc) as (_ & -> & -> & _).
    rewrite <- Hd. by apply parse_unsigned_digits.
  - rewrite strip_with_none by (constructor; done).
    change ((ch_minus =? ch_plus)%N) with false.
    change ((ch_minus =? ch_minus)%N) with true. cbv iota.
    by rewrite parse_unsigned_digits.
Qed.

(** X3: [int(str(n)) = n]: an ordinal written into the prompt by the
    f-string and sent back by the model as a numeric string converts to the
    same integer as the JSON number would (for numbers within the 4300-digit
    limit of the conversion). *)
Theorem int_of_str_of_int (n : Z) :
  (length (str_of_int n) <= int_max_str_digits)%nat ->
  int_of_str (str_of_int n) = inr n
  /\ py_int (JStr (str_of_int n)) = py_int (JInt n).
Proof.
  intros Hlen.
  assert (int_of_str (str_of_int n) = inr n) as Hint; [|by split].
  unfold str_of_int in *. destruct n as [|p|p]; simpl in *.
  - reflexivity.
  - destruct (int_of_str_digits (Pos.to_uint p)) as [-> _];
      [apply Unsigned.to_uint_nonnil | done |].
    by rewrite Unsigned.of_to.
  - destruct (int_of_str_digits (Pos.to_uint p)) as [_ ->];
      [apply Unsigned.to_uint_nonnil | lia |].
    by rewrite Unsigned.of_to.
Qed.

Lemma int_of_str_of_int_witness :
  int_of_str (str_of_int 42) = inr 42
  /\ py_int (JStr (str_of_int 42)) = py_int (JInt 42).
Proof. apply int_of_str_of_int. vm_compute. lia. Defined.

(** ** Replies of unexpected shape *)

(** X4: a JSON float given as an id is not rejected but truncated towards
    zero: a finite float of magnitude m * 2^e converts to the integer part
    of that magnitude, with the float's sign; NaN and the infinities
    raise. *)
Theorem float_id_is_truncated (s : bool) (m : positive) (e : Z) :
  exists a,
    py_int (JFloat (S754_finite s m e)) = inr (if s then - a else a)
    /\ 0 <= a
    /\ (0 <= e -> a = Z.pos m * 2 ^ e)
    /\ (e < 0 -> a * 2 ^ (- e) <= Z.pos m < (a + 1) * 2 ^ (- e)).
Proof.
  exists (Z.shiftl (Z.pos m) e). split; [done|].
  split; [by apply Z.shiftl_nonneg|]. split.
  - intros He. by apply Z.shiftl_mul_pow2.
  - intros He. rewrite Z.shiftl_div_pow2 by lia.
    assert (0 < 2 ^ (- e)) as Hpow by (apply Z.pow_pos_nonneg; lia).
    pose proof (Z.div_mod (Z.pos m) (2 ^ (- e)) ltac:(lia)) as Hdm.
    pose proof (Z.mod_pos_bound (Z.pos m) (2 ^ (- e)) Hpow) as Hmod.
    nia.
Qed.

Lemma float_id_is_truncated_witness :
  exists a,
    py_int (JFloat (S754_finite false 15 (-3))) = inr a
    /\ a * 2 ^ 3 <= 15 < (a + 1) * 2 ^ 3.
Proof.
  destruct (float_id_is_truncated false 15 (-3)) as (a & Ha & _ & _ & Hneg).
  exists a. split; [exact Ha|]. apply Hneg. lia.
Defined.

Lemma int_of_str_one_digit (c : char) :
  ascii_digit c = true -> int_of_str [c] = inr (Z.of_N c - 48).
Proof.
  intros Hc.
  destruct (ascii_digit_cases c Hc) as [->|[->|[->|[->|[->|[->|[->|[->|[->| ->]]]]]]]]];
    reflexivity.
Qed.

(** X5: a category whose value is a string of digits instead of an array
    is read character by character: every digit is taken as an ordinal of
    its own, so the value "12" names the ordinals 1 and 2, never 12. *)
Theorem string_of_digits_is_read_per_character (s : str) :
  Forall (fun c => ascii_digit c = true) s ->
  ordinals_of (JStr s) = inr ((fun c => Z.of_N c - 48) <$> s).
Proof.
  unfold ordinals_of. simpl.
  induction 1 as [|c s Hc _ IH]; [done|]. simpl in *.
  rewrite (int_of_str_one_digit c Hc). simpl. rewrite IH. done.
Qed.

Lemma string_of_digits_is_read_per_character_witness :
  ordinals_of (JStr (lit "12")) = inr [1; 2].
Proof.
  apply (string_of_digits_is_read_per_character (lit "12")).
  repeat constructor.
Defined.

Lemma rebuild_loop_not_iterable (emails : list EmailRecord) (c : str) (ids : json) (e : exn)
    (items1 items2 : list (str * json)) :
  py_iter ids = inl e ->
  forall out, exists e',
    rebuild_loop (make_email_map emails) (items1 ++ (c, ids) :: items2) out = inl e'.
Proof.
  intros Hiter. induction items1 as [|[c1 ids1] items1 IH]; intros out; simpl.
  - rewrite Hiter. by exists e.
  - destruct (py_iter ids1) as [e1|l1]; simpl; [by exists e1|].
    destruct (resolve_ids _ c1 l1 _) as [e1|out1]; simpl; [by exists e1 | apply IH].
Qed.

(** X6: a reply that is valid JSON of the wrong shape gives the empty
    assignment: when the decoded reply is not an object, or when some
    category's value is a scalar ([null], a boolean or a number), the engine
    returns [{}] and drops every other category of the reply too. *)
Theorem wrong_shape_reply_gives_empty {W : Type} (env : Env W)
    (emails : list EmailRecord) (st : state W) (v : json) :
  model_replies env emails st v ->
  (forall items, v <> JDict items)
  \/ (exists items1 c ids items2,
        v = JDict (items1 ++ (c, ids) :: items2)
        /\ (ids = JNull \/ (exists b, ids = JBool b) \/ (exists n, ids = JInt n)
            \/ (exists f, ids = JFloat f))) ->
  fst (categorize_with_ai env emails st) = inr [].
Proof.
  intros Hrep Hshape. apply failure_is_caught.
  destruct Hshape as [Hnot|(items1 & c & ids & items2 & -> & Hscalar)].
  - apply (processing_raises env emails st v AttributeError Hrep).
    unfold rebuild. destruct v; try done. by destruct (Hnot d).
  - destruct (rebuild_loop_not_iterable emails c ids TypeError items1 items2) with (out := @nil (str * list EmailRecord))
      as [e' He'].
    { destruct Hscalar as [->|[[b ->]|[[n ->]|[f ->]]]]; done. }
    by apply (processing_raises env emails st _ e' Hrep).
Qed.

Lemma wrong_shape_reply_gives_empty_witness :
  fst (categorize_with_ai (reply_env (lit "[1, 2]") (JList [JInt 1; JInt 2])) [e1; e2] st0)
    = inr []
  /\ fst (categorize_with_ai
            (reply_env (lit "two categories")
               (JDict [(lit "A", JList [JInt 1]); (lit "B", JInt 2)]))
            [e1; e2] st0) = inr [].
Proof.
  split.
  - apply (wrong_shape_reply_gives_empty _ _ _ (JList [JInt 1; JInt 2])).
    + eexists _, _, _. split; [reflexivity|]. split; reflexivity.
    + by left.
  - apply (wrong_shape_reply_gives_empty _ _ _
             (JDict [(lit "A", JList [JInt 1]); (lit "B", JInt 2)])).
    + eexists _, _, _. split; [reflexivity|]. split; reflexivity.
    + right. exists [(lit "A", JList [JInt 1])], (lit "B"), (JInt 2), [].
      split; [done|]. right. right. left. by exists 2.
Defined.

Lemma ordinal_lookup_in_batch (emails : list EmailRecord) (n : Z) :
  is_Some (ordinal_lookup emails n) <-> in_batch emails n = true.
Proof.
  unfold ordinal_lookup, in_batch.
  destruct ((1 <=? n) && (n <=? Z.of_nat (length emails))) eqn:Hr.
  - split; [done|]. intros _. apply lookup_lt_is_Some.
    apply andb_prop in Hr as [H1 H2]. apply Z.leb_le in H1. apply Z.leb_le in H2. lia.
  - split; [by intros [? ?] | done].
Qed.

Lemma resolved_length (emails : list EmailRecord) (ns : list Z) :
  length (resolved emails ns)
  = length (List.filter (in_batch emails) ns).
Proof.
  unfold resolved. induction ns as [|n ns IH]; [done|].
  pose proof (ordinal_lookup_in_batch emails n) as Hn.
  cbn [List.filter]. csimpl.
  destruct (ordinal_lookup emails n) as [r|], (in_batch emails n); csimpl.
  - by rewrite IH.
  - assert (false = true) by (apply Hn; eauto). done.
  - assert (is_Some (@None EmailRecord)) as [? ?] by (by apply Hn). done.
  - exact IH.
Qed.

(** X7: within one category nothing is merged: when every entry of the
    reply converts, a category holds one record per listed entry whose
    ordinal is in 1..N, so an ordinal listed k times puts its record there k
    times. *)
Theorem category_holds_one_record_per_valid_entry {W : Type} (env : Env W)
    (emails : list EmailRecord) (st : state W) (items : list (str * json)) :
  emails <> [] ->
  NoDup (dict_keys items) ->
  model_replies env emails st (JDict items) ->
  (forall c ids, (c, ids) ∈ items -> exists ns, ordinals_of ids = inr ns) ->
  exists out,
    fst (categorize_with_ai env emails st) = inr out
    /\ forall c ids ns,
         (c, ids) ∈ items -> ordinals_of ids = inr ns ->
         exists l, dict_get c out = Some l
           /\ length l = length (List.filter (in_batch emails) ns).
Proof.
  intros Hne Hnd Hrep Hall.
  rewrite (categorize_object_reply env emails st items Hne Hnd Hrep).
  destruct (res_map_total (category_entry emails) items) as [entries Hentries].
  { intros [c ids] Hin. destruct (Hall c ids Hin) as [ns Hns].
    exists (c, resolved emails ns). unfold category_entry. simpl. by rewrite Hns. }
  rewrite Hentries. exists entries. split; [done|].
  intros c ids ns Hin Hns. exists (resolved emails ns).
  split; [by eapply category_entries_get | apply resolved_length].
Qed.

Lemma category_holds_one_record_per_valid_entry_witness :
  exists out l,
    fst (categorize_with_ai
           (reply_env (lit "twice") (JDict [(lit "A", JList [JInt 1; JInt 1; JInt 7])]))
           [e1; e2] st0) = inr out
    /\ dict_get (lit "A") out = Some l /\ length l = 2%nat.
Proof.
  destruct (category_holds_one_record_per_valid_entry
              (reply_env (lit "twice") (JDict [(lit "A", JList [JInt 1; JInt 1; JInt 7])]))
              [e1; e2] st0 [(lit "A", JList [JInt 1; JInt 1; JInt 7])])
    as (out & Hout & Hcount).
  - done.
  - apply NoDup_singleton.
  - eexists _, _, _. split; [reflexivity|]. split; reflexivity.
  - intros c ids Hin. apply list_elem_of_singleton in Hin. injection Hin as -> ->.
    by exists [1; 1; 7].
  - destruct (Hcount (lit "A") (JList [JInt 1; JInt 1; JInt 7]) [1; 1; 7])
      as (l & Hget & Hlen); [by apply list_elem_of_singleton | done |].
    by exists out, l.
Defined.

(** ** What a run leaves in the trace *)

(** X8: a failed categorization is logged once and a successful one is
    not: after the model call the trace of a non-empty batch ends with one
    [AI Processing Failed] entry when the body of the [try] failed, and with
    the model call itself when the reply was rebuilt. *)
Theorem failure_is_logged_once {W : Type} (env : Env W)
    (emails : list EmailRecord) (st : state W) :
  emails <> [] ->
  (categorization_failure env emails st ->
     exists e,
       trace (snd (categorize_with_ai env emails st))
       = (trace st ++ [CallChat (chat_request (build_prompt (make_email_map emails)))])
           ++ [LogError (lit "AI Processing Failed") e])
  /\ (forall v out,
        model_replies env emails st v ->
        rebuild (make_email_map emails) v = inr out ->
        trace (snd (categorize_with_ai env emails st))
        = trace st ++ [CallChat (chat_request (build_prompt (make_email_map emails)))]).
Proof.
  intros Hne. destruct emails as [|e0 emails]; [done|].
  unfold categorize_with_ai, try_except, categorize_try, bind, perform, lift, log_error, ret.
  split.
  - intros [e w Hcall | completion w e Hcall Hdec | v e Hrep Hreb].
    + rewrite Hcall. simpl. by exists e.
    + rewrite Hcall. simpl.
      destruct (first_content completion) as [e'|c]; simpl in *; [by exists e'|].
      rewrite Hdec. simpl. by exists e.
    + destruct Hrep as (completion & w & s & Hcall & Hfirst & Hloads).
      rewrite Hcall. simpl. rewrite Hfirst. simpl. rewrite Hloads. simpl.
      rewrite Hreb. simpl. by exists e.
  - intros v out (completion & w & s & Hcall & Hfirst & Hloads) Hreb.
    rewrite Hcall. simpl. rewrite Hfirst. simpl. rewrite Hloads. simpl.
    rewrite Hreb. done.
Qed.

Lemma failure_is_logged_once_witness :
  (exists e,
     trace (snd (categorize_with_ai down_env [e1; e2] st0))
     = (trace st0 ++ [CallChat (chat_request (build_prompt (make_email_map [e1; e2])))])
         ++ [LogError (lit "AI Processing Failed") e])
  /\ trace (snd (categorize_with_ai (reply_env text_1_99 json_1_99) [e1; e2] st0))
     = trace st0 ++ [CallChat (chat_request (build_prompt (make_email_map [e1; e2])))].
Proof.
  split.
  - destruct (failure_is_logged_once down_env [e1; e2] st0) as [Hfail _]; [done|].
    apply Hfail. eapply call_raises. reflexivity.
  - destruct (failure_is_logged_once (reply_env text_1_99 json_1_99) [e1; e2] st0)
      as [_ Hok]; [done|].
    apply (Hok json_1_99 [(action_required, [e1])]).
    + eexists _, _, _. split; [reflexivity|]. split; reflexivity.
    + reflexivity.
Defined.

(** ** Headers and senders *)

(** X9: the first header of the wanted name decides: when the headers
    before it have other names, its value is the result, whatever follows
    it, be it a second header of that name or a malformed one. *)
Theorem first_matching_header_wins (wanted fallback : str)
    (pre post : list Header) (h : Header) (v : str) :
  Forall (named_otherwise wanted) pre ->
  h_name h = Some wanted ->
  h_value h = Some v ->
  header_value wanted fallback (pre ++ h :: post) = inr v.
Proof.
  intros Hpre Hname Hvalue.
  induction Hpre as [|h0 pre (n & Hn & Hne) _ IH]; simpl.
  - rewrite Hname, Hvalue. by rewrite decide_True.
  - rewrite Hn. by rewrite decide_False.
Qed.

Lemma first_matching_header_wins_witness :
  header_value (lit "From") (lit "Unknown")
    ([header "Subject" "Hi"] ++ header "From" "Alice <a@x.com>"
       :: [header "From" "Mallory"; {| h_name := None; h_value := None |}])
  = inr (lit "Alice <a@x.com>").
Proof.
  apply first_matching_header_wins.
  - constructor; [|constructor]. exists (lit "Subject"). split; [reflexivity | done].
  - reflexivity.
  - reflexivity.
Defined.

Lemma nameless_header_raises (wanted fallback : str) (pre post : list Header) (h : Header) :
  Forall (named_otherwise wanted) pre ->
  h_name h = None ->
  header_value wanted fallback (pre ++ h :: post) = inl KeyError.
Proof.
  intros Hpre Hname.
  induction Hpre as [|h0 pre (n & Hn & Hne) _ IH]; simpl.
  - by rewrite Hname.
  - rewrite Hn. by rewrite decide_False.
Qed.

(** X10: a header without a name costs the whole message: when both reads
    of a message succeed but a nameless header precedes any [Subject]
    header, the iteration leaves the accumulators as they were, and the
    message is dropped without a record. *)
Theorem nameless_header_drops_message {W : Type} (env : Env W)
    (msg : MsgRef) (i : str) (data snippet_res : Message) (st : state W) (w1 w2 : W)
    (pre post : list Header) (h : Header) (acc : list EmailRecord * gmap str Z) :
  ref_id msg = Some i ->
  messages_get env i (Metadata [lit "From"; lit "Subject"]) (world st) = (inr data, w1) ->
  messages_get env i Minimal w1 = (inr snippet_res, w2) ->
  headers_of data = pre ++ h :: post ->
  Forall (named_otherwise (lit "Subject")) pre ->
  h_name h = None ->
  fst (fetch_step env acc msg st) = inr acc.
Proof.
  intros Hid Hmeta Hmin Hheaders Hpre Hname.
  unfold fetch_step, try_except, read_message, bind, lift, perform, ret, msg_id_of.
  rewrite Hid. simpl. rewrite Hmeta. simpl. rewrite Hmin. simpl.
  rewrite Hheaders, (nameless_header_raises _ _ pre post h Hpre Hname). done.
Qed.

Lemma nameless_header_drops_message_witness :
  fst (fetch_step
         (mail_env (fun i fmt =>
            match fmt with
            | Metadata _ =>
                inr (metadata_of [ {| h_name := None; h_value := Some (lit "x") |};
                                   header "From" "Alice <a@x.com>" ])
            | Minimal => inr (minimal_of "See you")
            end))
         ([e1], ∅) (ref "m2") st0)
  = inr ([e1], ∅).
Proof.
  apply (nameless_header_drops_message _ (ref "m2") (lit "m2")
           (metadata_of [ {| h_name := None; h_value := Some (lit "x") |};
                          header "From" "Alice <a@x.com>" ])
           (minimal_of "See you") st0 tt tt
           [] [header "From" "Alice <a@x.com>"] {| h_name := None; h_value := Some (lit "x") |}).
  - reflexivity.
  - reflexivity.
  - reflexivity.
  - reflexivity.
  - constructor.
  - reflexivity.
Defined.

Lemma lstrip_with_elem (f : char -> bool) (s : str) (c : char) :
  c ∈ lstrip_with f s -> c ∈ s.
Proof.
  induction s as [|x s IH]; simpl; [done|].
  destruct (f x); [|done]. intros Hin. apply elem_of_cons. right. by apply IH.
Qed.

Lemma strip_with_elem (f : char -> bool) (s : str) (c : char) :
  c ∈ strip_with f s -> c ∈ s.
Proof.
  unfold strip_with. intros Hin.
  apply list_elem_of_In, in_rev, list_elem_of_In, lstrip_with_elem in Hin.
  apply list_elem_of_In, in_rev, list_elem_of_In in Hin.
  by apply lstrip_with_elem in Hin.
Qed.

Lemma split_head_no_sep (sep : char) (s : str) : sep ∉ split_head sep s.
Proof.
  induction s as [|x s IH]; simpl; [apply not_elem_of_nil|].
  destruct (N.eqb_spec x sep); [apply not_elem_of_nil|].
  apply not_elem_of_cons. split; [congruence | done].
Qed.

(** X11: the display name kept for a sender holds neither [<] nor a double
    quote, whatever the [From] header was, and every character of it comes
    from the header. *)
Theorem simple_sender_has_no_bracket_no_quote (sender : str) :
  (ch_lt ∉ simple_sender sender)
  /\ (ch_dquote ∉ simple_sender sender)
  /\ Forall (fun c => c ∈ sender) (simple_sender sender).
Proof.
  unfold simple_sender, remove_char.
  assert (forall c, c ∈ List.filter (fun c => negb (c =? ch_dquote)%N)
                        (strip (split_head ch_lt sender)) ->
                    c <> ch_dquote /\ c ∈ split_head ch_lt sender) as Hin.
  { intros c Hc. apply list_elem_of_In, filter_In in Hc as [Hc Hq].
    split.
    - intros ->. done.
    - apply list_elem_of_In in Hc. by apply strip_with_elem in Hc. }
  split; [|split].
  - intros Hc. apply Hin in Hc as [_ Hc]. by apply split_head_no_sep in Hc.
  - intros Hc. by apply Hin in Hc as [Hc _].
  - apply Forall_forall. intros c Hc. apply Hin in Hc as [_ Hc].
    clear Hin. induction sender as [|x s IH]; simpl in Hc; [done|].
    destruct (N.eqb_spec x ch_lt); [by apply elem_of_nil in Hc|].
    apply elem_of_cons in Hc as [->|Hc]; apply elem_of_cons; [by left | right; by apply IH].
Qed.

(** ** The fetch pass as a whole *)

Section FetchPass.

Context {W : Type} (env : Env W).

Lemma fetch_step_state (acc : list EmailRecord * gmap str Z) (msg : MsgRef) (st : state W) :
  snd (fetch_step env acc msg st) = snd (read_message env msg st).
Proof.
  unfold fetch_step, try_except, bind, ret.
  destruct (read_message env msg st) as [[x|f] st1]; [done|].
  destruct (make_record msg f); done.
Qed.

(** Reading one message costs at most two calls, both reads of Gmail, and
    leaves the session alone. *)
Lemma read_message_trace (msg : MsgRef) (st : state W) :
  exists calls,
    trace (snd (read_message env msg st)) = trace st ++ calls
    /\ (length calls <= 2)%nat
    /\ Forall (fun ev => is_get_call ev = true) calls
    /\ session (snd (read_message env msg st)) = session st.
Proof.
  unfold read_message, bind, lift, perform, ret, msg_id_of.
  destruct (ref_id msg) as [i|]; simpl.
  2:{ exists []. rewrite app_nil_r. repeat split; [simpl; lia | constructor]. }
  destruct (messages_get env i _ (world st)) as [[x|data] w1]; simpl.
  { eexists [_]. repeat split; [simpl; lia | by repeat constructor]. }
  destruct (messages_get env i Minimal w1) as [[x|sres] w2]; simpl.
  { eexists [_; _]. rewrite <- app_assoc. repeat split; [simpl; lia | by repeat constructor]. }
  destruct (header_value _ _ _) as [x|sub]; simpl.
  { eexists [_; _]. rewrite <- app_assoc. repeat split; [simpl; lia | by repeat constructor]. }
  destruct (header_value _ _ _) as [x|snd]; simpl;
    eexists [_; _]; rewrite <- app_assoc; repeat split;
    solve [simpl; lia | by repeat constructor].
Qed.

Lemma fetch_loop_trace (msgs : list MsgRef) :
  forall (acc : list EmailRecord * gmap str Z) (st : state W),
  exists calls,
    trace (snd (fetch_loop env msgs acc st)) = trace st ++ calls
    /\ (length calls <= 2 * length msgs)%nat
    /\ Forall (fun ev => is_get_call ev = true) calls
    /\ session (snd (fetch_loop env msgs acc st)) = session st.
Proof.
  induction msgs as [|msg msgs IH]; intros acc st.
  - exists []. simpl. rewrite app_nil_r. repeat split; [simpl; lia | constructor].
  - destruct (fetch_step_cases env acc msg st)
      as [(e & st1 & _ & Hs)|(x & st1 & _ & Hs)];
      rewrite (fetch_loop_cons env _ _ _ _ _ _ Hs);
      pose proof (fetch_step_state acc msg st) as Hst; rewrite Hs in Hst; simpl in Hst;
      destruct (read_message_trace msg st) as (c1 & Ht1 & Hl1 & Hg1 & Hs1);
      rewrite <- Hst in Ht1, Hs1;
      match goal with
      | |- context [fetch_loop env msgs ?a st1] =>
          destruct (IH a st1) as (c2 & Ht2 & Hl2 & Hg2 & Hs2)
      end;
      exists (c1 ++ c2); rewrite Ht2, Ht1, Hs2, Hs1, app_assoc, length_app;
      (repeat split; [simpl; lia | by apply Forall_app]).
Qed.

Lemma fetch_loop_sublist (msgs : list MsgRef) :
  forall (acc : list EmailRecord * gmap str Z) (st : state W),
  exists acc' st' new,
    fetch_loop env msgs acc st = (inr acc', st')
    /\ fst acc' = fst acc ++ new
    /\ (Some <$> (id <$> new)) `sublist_of` (ref_id <$> msgs).
Proof.
  induction msgs as [|msg msgs IH]; intros acc st.
  - exists acc, st, []. split; [done|]. split; [by rewrite app_nil_r | constructor].
  - destruct (fetch_step_cases env acc msg st)
      as [(e & st1 & Hm & Hs)|(x & st1 & Hm & Hs)];
      rewrite (fetch_loop_cons env _ _ _ _ _ _ Hs).
    + destruct (IH (fst acc ++ [e],
                    <[from e := counter_get (snd acc) (from e) + 1]> (snd acc)) st1)
        as (acc' & st' & new & Hloop & Hnew & Hsub).
      exists acc', st', (e :: new). split; [done|].
      split; [simpl in Hnew; by rewrite Hnew, <- app_assoc|].
      rewrite !fmap_cons, (fetch_message_id env _ _ _ _ Hm).
      by apply sublist_skip.
    + destruct (IH acc st1) as (acc' & st' & new & Hloop & Hnew & Hsub).
      exists acc', st', new. split; [done|]. split; [done|].
      rewrite fmap_cons. by apply sublist_cons.
Qed.

Lemma fetch_and_count_returns (msgs : list MsgRef) (st : state W) :
  exists recs st',
    fetch_and_count env msgs st = (inr recs, st')
    /\ session st' = session st
    /\ chat_calls (trace st') = chat_calls (trace st).
Proof.
  destruct (fetch_loop_sublist msgs ([], ∅) st) as (acc & st' & new & Hloop & _ & _).
  destruct (fetch_loop_trace msgs ([], ∅) st) as (calls & Htrace & _ & Hget & Hsession).
  rewrite Hloop in Htrace, Hsession. simpl in Htrace, Hsession.
  exists (attach_counts (fst acc) (snd acc)), st'.
  unfold fetch_and_count, bind, ret. rewrite Hloop. split; [done|]. split; [done|].
  rewrite Htrace. unfold chat_calls. rewrite List.filter_app.
  assert (List.filter is_chat_call calls = []) as ->; [|by rewrite app_nil_r].
  clear -Hget. induction Hget as [|ev calls Hev _ IH]; [done|].
  simpl. destruct ev; done.
Qed.

End FetchPass.

(** X12: every record that the fetch pass returns has a [sender_count]
    of at least 1 and at most the size of the batch. *)
Theorem sender_count_is_at_least_one {W : Type} (env : Env W)
    (msgs : list MsgRef) (st : state W) :
  exists recs,
    fst (fetch_and_count env msgs st) = inr recs
    /\ Forall (fun r => exists n, sender_count r = Some n
                 /\ 1 <= n <= Z.of_nat (length recs)) recs.
Proof.
  destruct (fetch_loop_inv env msgs ([], ∅) st) as (acc & st' & Hloop & Hinv & _).
  { intros k. simpl. unfold counter_get. by rewrite lookup_empty. }
  unfold fetch_and_count, bind, ret. rewrite Hloop. simpl.
  exists (attach_counts (fst acc) (snd acc)). split; [done|].
  apply Forall_forall. intros r Hr.
  unfold attach_counts in *. rewrite length_fmap.
  apply list_elem_of_fmap in Hr as (r0 & -> & Hr0). simpl.
  eexists. split; [done|]. rewrite Hinv. unfold sender_occurrences.
  pose proof (length_filter (fun r => from r = from r0) (fst acc)) as Hle.
  assert (r0 ∈ filter (fun r => from r = from r0) (fst acc)) as Hin
    by (by apply list_elem_of_filter).
  destruct (filter (fun r => from r = from r0) (fst acc)) as [|x l] eqn:Hf.
  - by apply elem_of_nil in Hin.
  - simpl in *. lia.
Qed.

(** X13: the fetch pass keeps the order of the listing and adds nothing:
    the message ids of the records it returns are a subsequence of the
    listed ids, so there is at most one record per listed message. *)
Theorem fetched_records_follow_listing {W : Type} (env : Env W)
    (msgs : list MsgRef) (st : state W) :
  exists recs,
    fst (fetch_and_count env msgs st) = inr recs
    /\ (Some <$> (id <$> recs)) `sublist_of` (ref_id <$> msgs)
    /\ (length recs <= length msgs)%nat.
Proof.
  destruct (fetch_loop_sublist env msgs ([], ∅) st) as (acc & st' & new & Hloop & Hnew & Hsub).
  unfold fetch_and_count, bind, ret. rewrite Hloop. simpl.
  exists (attach_counts (fst acc) (snd acc)). split; [done|].
  simpl in Hnew. rewrite <- Hnew in Hsub.
  split; [by rewrite attach_counts_ids|].
  apply sublist_length in Hsub. rewrite !length_fmap in Hsub.
  unfold attach_counts. by rewrite length_fmap.
Qed.

(** X14: the fetch pass reads Gmail at most twice per listed message and
    does nothing else: it adds only reads to the trace, so it neither calls
    the model nor logs the messages it skips, and it leaves the session as
    it found it. *)
Theorem fetch_pass_only_reads_gmail {W : Type} (env : Env W)
    (msgs : list MsgRef) (st : state W) :
  exists calls,
    trace (snd (fetch_and_count env msgs st)) = trace st ++ calls
    /\ (length calls <= 2 * length msgs)%nat
    /\ Forall (fun ev => is_get_call ev = true) calls
    /\ session (snd (fetch_and_count env msgs st)) = session st.
Proof.
  destruct (fetch_loop_trace env msgs ([], ∅) st) as (calls & Htrace & Hlen & Hget & Hsession).
  exists calls. unfold fetch_and_count, bind, ret.
  destruct (fetch_loop env msgs ([], ∅) st) as [[x|acc] st']; done.
Qed.

(** ** [callback] from end to end *)

Section Callback.

Context {W : Type} (env : Env W).

(** Sorting and storing never raises: it answers with the redirect and
    stores what the engine returned. *)
Lemma sort_and_store_returns (emails : list EmailRecord) (st : state W) :
  exists out st',
    fst (categorize_with_ai env emails st) = inr out
    /\ sort_and_store env emails st = (inr (RedirectResponse FRONTEND_URL), st')
    /\ session st' = {| credentials := credentials (session st); last_result := out |}.
Proof.
  destruct (categorize_returns env emails st) as (out & Hout & _).
  pose proof (categorize_keeps_session env emails st) as Hsession.
  unfold sort_and_store, bind, get_session, put_session, ret.
  destruct (categorize_with_ai env emails st) as [[e|out'] st1]; simpl in *; [done|].
  injection Hout as ->. eexists out, _. split; [done|]. split; [done|].
  simpl. by rewrite Hsession.
Qed.

(** Once the token exchange, the client and the listing have succeeded,
    the rest of [callback] is the fetch pass followed by sort-and-store. *)
Lemma callback_after_listing (url : str) (st : state W) (creds : Credentials)
    (u : unit) (results : ListResponse) (w1 w2 w3 : W) :
  fetch_token env url (world st) = (inr creds, w1) ->
  build env creds w1 = (inr u, w2) ->
  messages_list env 60 w2 = (inr results, w3) ->
  callback env url st
  = (let* extracted_emails := fetch_and_count env (default [] (r_messages results)) in
     sort_and_store env extracted_emails) (state_after_listing url creds w3 st).
Proof.
  intros Htoken Hbuild Hlist.
  destruct (fetch_and_count_returns env (default [] (r_messages results))
              (state_after_listing url creds w3 st)) as (recs & st4 & Hfetch & _ & _).
  destruct (sort_and_store_returns recs st4) as (out & st5 & _ & Hsort & _).
  unfold callback, try_except, bind, perform, get_session, put_session.
  rewrite Htoken. simpl. rewrite Hbuild. simpl. rewrite Hlist. simpl.
  unfold state_after_listing in *. rewrite !Hfetch, Hsort. done.
Qed.

End Callback.



(** Both failing ends of [callback] occur: a refusal with a plain text is
    answered with status 500, a refusal whose text holds a lone surrogate
    makes the handler itself raise. *)
Example callback_handler_can_raise :
  fst (callback (denied_env (lit "invalid_grant")) (lit "http://localhost:8000/auth/callback") st0)
    = inr (JSONResponse (OtherError (lit "invalid_grant")) 500)
  /\ fst (callback (denied_env (lit "bad " ++ [56448%N]))
            (lit "http://localhost:8000/auth/callback") st0)
     = inl ValueError.
Proof. split; reflexivity. Qed.

(** X16: when the token exchange, the client construction and the listing
    succeed, [callback] redirects, keeps the credential in the session and
    stores, as the result that [/result] will serve, exactly what the engine
    returns for the records of the fetch pass over the listed messages. *)
Theorem callback_stores_categorized_fetch {W : Type} (env : Env W)
    (url : str) (st : state W) (creds : Credentials) (u : unit)
    (results : ListResponse) (w1 w2 w3 : W) :
  fetch_token env url (world st) = (inr creds, w1) ->
  build env creds w1 = (inr u, w2) ->
  messages_list env 60 w2 = (inr results, w3) ->
  exists recs st4 out,
    fetch_and_count env (default [] (r_messages results))
      (state_after_listing url creds w3 st) = (inr recs, st4)
    /\ fst (categorize_with_ai env recs st4) = inr out
    /\ fst (callback env url st) = inr (RedirectResponse FRONTEND_URL)
    /\ session (snd (callback env url st))
       = {| credentials := Some creds; last_result := out |}
    /\ get_result (session (snd (callback env url st)))
       = {| status := lit "success"; categories := out |}.
Proof.
  intros Htoken Hbuild Hlist.
  rewrite (callback_after_listing env url st creds u results w1 w2 w3 Htoken Hbuild Hlist).
  destruct (fetch_and_count_returns env (default [] (r_messages results))
              (state_after_listing url creds w3 st)) as (recs & st4 & Hfetch & Hsession & _).
  destruct (sort_and_store_returns env recs st4) as (out & st5 & Hout & Hsort & Hstored).
  exists recs, st4, out. split; [done|]. split; [done|].
  unfold bind. rewrite Hfetch, Hsort. simpl.
  rewrite Hstored, Hsession. done.
Qed.

Lemma callback_stores_categorized_fetch_witness :
  exists out,
    fst (callback
           (inbox_env [ref "m1"; ref "m2"] alice_mail (says text_1_99) [(text_1_99, json_1_99)])
           (lit "http://localhost:8000/auth/callback?code=c") st0)
      = inr (RedirectResponse FRONTEND_URL)
    /\ get_result (session (snd (callback
           (inbox_env [ref "m1"; ref "m2"] alice_mail (says text_1_99) [(text_1_99, json_1_99)])
           (lit "http://localhost:8000/auth/callback?code=c") st0)))
       = {| status := lit "success"; categories := out |}.
Proof.
  destruct (callback_stores_categorized_fetch
              (inbox_env [ref "m1"; ref "m2"] alice_mail (says text_1_99) [(text_1_99, json_1_99)])
              (lit "http://localhost:8000/auth/callback?code=c") st0
              (Creds (lit "http://localhost:8000/auth/callback?code=c")) tt
              {| r_messages := Some [ref "m1"; ref "m2"] |} tt tt tt)
    as (recs & st4 & out & _ & _ & Hresp & _ & Hresult).
  - reflexivity.
  - reflexivity.
  - reflexivity.
  - by exists out.
Defined.

(** X17: an inbox that lists no message, with the [messages] key missing
    or empty, is a successful run: [callback] redirects, stores [{}], and
    after the listing makes no further call, neither to Gmail nor to the
    model. *)
Theorem empty_listing_stores_empty_result {W : Type} (env : Env W)
    (url : str) (st : state W) (creds : Credentials) (u : unit)
    (results : ListResponse) (w1 w2 w3 : W) :
  fetch_token env url (world st) = (inr creds, w1) ->
  build env creds w1 = (inr u, w2) ->
  messages_list env 60 w2 = (inr results, w3) ->
  r_messages results = None \/ r_messages results = Some [] ->
  callback env url st
  = (inr (RedirectResponse FRONTEND_URL),
     {| world := w3;
        session := {| credentials := Some creds; last_result := [] |};
        trace := ((trace st ++ [CallFetchToken url]) ++ [CallBuild creds]) ++ [CallList 60] |}).
Proof.
  intros Htoken Hbuild Hlist Hempty.
  rewrite (callback_after_listing env url st creds u results w1 w2 w3 Htoken Hbuild Hlist).
  by destruct Hempty as [-> | ->].
Qed.

Lemma empty_listing_stores_empty_result_witness :
  callback (mail_env alice_mail) (lit "http://localhost:8000/auth/callback?code=c") st0
  = (inr (RedirectResponse FRONTEND_URL),
     {| world := tt;
        session := {| credentials := Some (Creds (lit "http://localhost:8000/auth/callback?code=c"));
                      last_result := [] |};
        trace := ((trace st0 ++ [CallFetchToken (lit "http://localhost:8000/auth/callback?code=c")])
                    ++ [CallBuild (Creds (lit "http://localhost:8000/auth/callback?code=c"))])
                   ++ [CallList 60] |}).
Proof.
  apply (empty_listing_stores_empty_result (mail_env alice_mail) _ st0 _ tt
           {| r_messages := None |} tt tt tt).
  - reflexivity.
  - reflexivity.
  - reflexivity.
  - by left.
Defined.
